(** * tc-dal: the DynamoDB data-access service

    A shallow embedding of [src/services/DynamoDbService.js] (the class
    [DynamoDbService]; the factory-function variant in the same directory has
    the same bodies, with [models] a closed-over constant and [delete] exported
    as [remove]).

    The service is a facade over dynamoose.  Dynamoose is not part of the
    repository, so it appears here as a record of functions over an arbitrary
    database state ([Backend]); every theorem about the service holds for every
    such backend.  A promise is modelled by its settlement: an operation maps a
    world to an outcome ([Resolved], [Rejected], or [Pending] when nothing
    settles it) and the world after it. *)

From Stdlib Require Import ZArith.
From stdpp Require Import base gmap strings list fin_maps pretty.

Set Warnings "-register-all".

(** ** JavaScript values

    The arguments of [validateDuplicate] are untyped: [keys] may be an array or
    a scalar and [values] anything.  The values modelled are [undefined],
    [null], booleans, safe integers, strings of one-byte characters, dense
    arrays, and plain objects (prototype [Object.prototype]) given by their own
    properties, whose values are again such values: no functions.  Where a
    list of properties repeats a name, its first entry is the property. *)

Module Js.

(** [Number.isSafeInteger]: the integers a number holds exactly, all of which
    print in plain decimal. *)
Definition safe (n : Z) : bool := (Z.abs n <? 2 ^ 53)%Z.

Record Num := {
  num : Z;
  num_safe : safe num = true;
}.

Inductive Value : Type :=
| VUndefined
| VNull
| VBool (b : bool)
| VNum (n : Num)
| VStr (s : string)
| VArr (xs : list Value)
| VObj (props : list (string * Value)).

(** [Array.isArray(v)] *)
Definition isArray (v : Value) : bool :=
  match v with VArr _ => true | _ => false end.

(** [v] is an object or [null]: what the setter of [__proto__] accepts. *)
Definition is_prototype (v : Value) : bool :=
  match v with VArr _ | VObj _ | VNull => true | _ => false end.

(** [sep]-separated concatenation, as [Array.prototype.join] does it. *)
Fixpoint join (sep : string) (parts : list string) : string :=
  match parts with
  | [] => ""
  | [p] => p
  | p :: rest => p +:+ sep +:+ join sep rest
  end.

(** Own property lookup in an object literal. *)
Fixpoint prop (name : string) (props : list (string * Value)) : Value :=
  match props with
  | [] => VUndefined
  | (k, v) :: rest => if String.eqb k name then v else prop name rest
  end.

(** [name] is an own property of the object. *)
Fixpoint has_own (name : string) (props : list (string * Value)) : bool :=
  match props with
  | [] => false
  | (k, _) :: rest => String.eqb k name || has_own name rest
  end.

(** [ToString(v)], the conversion a template literal [`${v}`] and a computed
    property name [o[v]] apply; [None] stands for the [TypeError] it throws.
    Inside [join] an element that is [undefined] or [null] prints as the empty
    string.  A plain object prints through [Object.prototype.toString], unless
    an own property [toString] shadows it: that property is no function, and
    [Object.prototype.valueOf] gives back the object, so the conversion
    throws. *)
Fixpoint toString (v : Value) : option string :=
  match v with
  | VUndefined => Some "undefined"
  | VNull => Some "null"
  | VBool true => Some "true"
  | VBool false => Some "false"
  | VNum n => Some (pretty (num n))
  | VStr s => Some s
  | VArr xs =>
      match
        (fix elems (l : list Value) : option (list string) :=
           match l with
           | [] => Some []
           | x :: l' =>
               match
                 match x with
                 | VUndefined | VNull => Some ""
                 | _ => toString x
                 end
               with
               | None => None
               | Some s =>
                   match elems l' with
                   | None => None
                   | Some ss => Some (s :: ss)
                   end
               end
           end) xs
      with
      | None => None
      | Some parts => Some (join "," parts)
      end
  | VObj props => if has_own "toString" props then None else Some "[object Object]"
  end.

(** What reading [v.length] gives: the length of an array or a string, or the
    value of the property for anything else. *)
Inductive Length : Type :=
| Count (n : nat)
| Property (v : Value).

(** [v.length]: [None] stands for the [TypeError] that reading a property of
    [undefined] or [null] throws. *)
Definition length (v : Value) : option Length :=
  match v with
  | VUndefined | VNull => None
  | VArr xs => Some (Count (List.length xs))
  | VStr s => Some (Count (String.length s))
  | VObj props => Some (Property (prop "length" props))
  | VBool _ | VNum _ => Some (Property VUndefined)
  end.

(** [n !== l] for the length [n] of an array. *)
Definition count_strict_ne (n : nat) (l : Length) : bool :=
  match l with
  | Count m => negb (n =? m)%nat
  | Property (VNum z) => negb (Z.of_nat n =? num z)%Z
  | Property _ => true
  end.

(** [v[i]] for an index [i], where [v] is neither [undefined] nor [null]. *)
Definition index (v : Value) (i : nat) : Value :=
  match v with
  | VArr xs => nth i xs VUndefined
  | VStr s =>
      match String.get i s with
      | Some c => VStr (String c EmptyString)
      | None => VUndefined
      end
  | VObj props => prop (pretty i) props
  | _ => VUndefined
  end.

(** [s] occurs in [m]. *)
Definition occurs_in (s m : string) : Prop :=
  ∃ before after : string, m = before +:+ s +:+ after.

End Js.

(** ** Data model *)

(** An attribute map: the own enumerable properties of a plain object (a
    record's attributes, a scan filter, the [data] of [create] and [update]). *)
Abbreviation Obj := (gmap string Js.Value).

(** An entity descriptor as the configuration supplies it: [fields] and
    [options], either of which may be missing. *)
Record Entity := {
  ent_fields : option Obj;
  ent_options : option Js.Value;
}.

(** [new Schema({...fields}, options)] *)
Record Schema := {
  sch_attributes : Obj;
  sch_options : option Js.Value;
}.

(** [dynamoose.model(modelName, schema)]: the table model. *)
Record Model := {
  model_name : string;
  model_schema : Schema;
}.

(** [getDynamooseModel]: spreading a missing [fields] gives the empty object.
    Building the schema and the model is taken to succeed. *)
Definition getDynamooseModel (modelName : string) (entity : Entity) : Model :=
  let schema :=
    {| sch_attributes := default ∅ (ent_fields entity);
       sch_options := ent_options entity |} in
  {| model_name := modelName; model_schema := schema |}.

(** A record handle is a reference to a mutable model instance. *)
Definition loc := nat.

(** A model instance: its model and its own properties, the attributes. *)
Record Instance := {
  inst_model : Model;
  inst_fields : Obj;
}.

(** What the backend hands to an [exec] callback on success: the matching
    items and the [count] property of the result array. *)
Record ResultSet := {
  rs_items : list Obj;
  rs_count : Z;
}.

(** An error object produced by dynamoose or the database. *)
Record DbError := {
  db_code : string;
  db_message : string;
}.

(** Modelled from the spec: the error classes of [src/utils/errors], which the
    service requires and which are absent from the sources.  The spec names the
    three kinds NotFound, BadRequest and Conflict, each carrying a message.
    [TypeError] is the engine's own error (a property read or a call on
    [undefined], a call of what is no function, a value that cannot be
    printed); [DbFailure] injects a backend error object unchanged. *)
Inductive Error : Type :=
| NotFoundError (message : string)
| BadRequestError (message : string)
| ConflictError (message : string)
| TypeError
| DbFailure (err : DbError).

(** The settlement of a promise.  [Pending]: the callback that was to settle
    the promise threw before calling [resolve] or [reject], so the promise is
    never settled; the exception goes to the backend, which called the
    callback. *)
Inductive Outcome (A : Type) : Type :=
| Resolved (a : A)
| Rejected (e : Error)
| Pending.
Arguments Resolved {A} a.
Arguments Rejected {A} e.
Arguments Pending {A}.

(** The array [search] resolves with: the record handles and the [count]
    property, which the literal [[]] does not have. *)
Record Records := {
  rec_items : list loc;
  rec_count : option Z;
}.

Definition empty_array : Records := {| rec_items := []; rec_count := None |}.

(** The requests the service sends to the backend, in the order sent.  A
    filter or an item is sent as its own properties. *)
Inductive Call : Type :=
| Scan (model : Model) (filter : Obj)
| Query (model : Model) (attribute : string) (value : Js.Value)
| Save (model : Model) (item : Obj)
| Delete (model : Model) (item : Obj).

(** The part of dynamoose the service uses, over a database state [DB]. *)
Record Backend (DB : Type) := {
  (** [new Model(data)] *)
  model_new : Model → Obj → Obj;
  (** [Model.scan(filter).exec(cb)] *)
  model_scan : Model → Obj → DB → (DbError + ResultSet) * DB;
  (** [Model.query(attribute).eq(value).exec(cb)] *)
  model_query : Model → string → Js.Value → DB → (DbError + ResultSet) * DB;
  (** [item.save(cb)] *)
  instance_save : Model → Obj → DB → option DbError * DB;
  (** [item.delete(cb)] *)
  instance_delete : Model → Obj → DB → option DbError * DB;
}.
Arguments model_new {DB} _ _ _.
Arguments model_scan {DB} _ _ _ _.
Arguments model_query {DB} _ _ _ _.
Arguments instance_save {DB} _ _ _ _.
Arguments instance_delete {DB} _ _ _ _.

(** A contract the service does not implement and cannot enforce, stated for
    the backends that meet it: a query by [id] made after a successful save
    finds the item saved, and one made after a successful delete finds
    nothing. *)
Record ReadsOwnWrites {DB : Type} (B : Backend DB) : Prop := {
  saved_is_found :
    ∀ model item id d d',
      item !! "id" = Some id →
      instance_save B model item d = (None, d') →
      ∃ count d'',
        model_query B model "id" id d'
        = (inr {| rs_items := [item]; rs_count := count |}, d'');
  deleted_is_gone :
    ∀ model item id d d',
      item !! "id" = Some id →
      instance_delete B model item d = (None, d') →
      ∃ count d'',
        model_query B model "id" id d'
        = (inr {| rs_items := []; rs_count := count |}, d'');
}.

(** The configuration object.  [awsConfig], [isLocalDB], [localDatabaseURL]
    and [dynamooseDefaults] are handed to dynamoose and only select the
    backend; the service itself reads [entities]. *)
Record Config := {
  entities : gmap string Entity;
}.

(** The world an operation runs in: the service's [models] object, the jobs
    the constructor left on the microtask queue (each assigns one entry of
    [models]), the record handles, the handles whose prototype an assignment to
    [__proto__] has replaced (with the replacement: such an object has lost the
    methods of its model), the database, and the requests sent so far. *)
Record World (DB : Type) := {
  models : gmap string Model;
  microtasks : list (string * Model);
  heap : gmap loc Instance;
  protos : gmap loc Js.Value;
  db : DB;
  log : list Call;
}.
Arguments models {DB} _.
Arguments microtasks {DB} _.
Arguments heap {DB} _.
Arguments protos {DB} _.
Arguments db {DB} _.
Arguments log {DB} _.

(** ** The service *)

Module DynamoDbService.

Section Service.

Context {DB : Type} (B : Backend DB).

Definition set_heap (h : gmap loc Instance) (w : World DB) : World DB :=
  {| models := models w; microtasks := microtasks w; heap := h;
     protos := protos w; db := db w; log := log w |}.

Definition set_protos (p : gmap loc Js.Value) (w : World DB) : World DB :=
  {| models := models w; microtasks := microtasks w; heap := heap w;
     protos := p; db := db w; log := log w |}.

(** The backend has served [c], leaving the database in state [d]. *)
Definition called (c : Call) (d : DB) (w : World DB) : World DB :=
  {| models := models w; microtasks := microtasks w; heap := heap w;
     protos := protos w; db := d; log := log w ++ [c] |}.

(** A new model instance, under a reference that is not in use. *)
Definition alloc (used : gset loc) (inst : Instance) (h : gmap loc Instance)
  : loc * gmap loc Instance :=
  let l := fresh (dom h ∪ used) in (l, <[l := inst]> h).

(** The instances dynamoose builds from the items of a reply. *)
Fixpoint alloc_all (used : gset loc) (model : Model) (items : list Obj)
    (h : gmap loc Instance) : list loc * gmap loc Instance :=
  match items with
  | [] => ([], h)
  | item :: rest =>
      let '(l, h1) := alloc used {| inst_model := model; inst_fields := item |} h in
      let '(ls, h2) := alloc_all used model rest h1 in
      (l :: ls, h2)
  end.

(** *** The constructor *)

(** [this.models = {}]; the callback of [_.forEach] is an [async] function, so
    each assignment [this.models[key] = await ...] is deferred to a microtask. *)
Definition constructor (config : Config) (d : DB) : World DB :=
  {| models := ∅;
     microtasks :=
       (λ '(key, entity), (key, getDynamooseModel key entity))
         <$> map_to_list (entities config);
     heap := ∅; protos := ∅; db := d; log := [] |}.

(** Draining the microtask queue performs the deferred assignments. *)
Definition run_microtasks (w : World DB) : World DB :=
  {| models := foldl (λ ms '(key, model), <[key := model]> ms) (models w) (microtasks w);
     microtasks := [];
     heap := heap w; protos := protos w; db := db w; log := log w |}.

(** *** Operations *)

Definition search (tableName : string) (searchOptions : Obj) (w : World DB)
  : Outcome Records * World DB :=
  match models w !! tableName with
  | None => (Rejected TypeError, w)
  | Some model =>
      let '(reply, d) := model_scan B model searchOptions (db w) in
      let w1 := called (Scan model searchOptions) d w in
      match reply with
      | inl err => (Rejected (DbFailure err), w1)
      | inr result =>
          let '(handles, h) :=
            alloc_all (dom (protos w1)) model (rs_items result) (heap w1) in
          (Resolved (if (rs_count result =? 0)%Z then empty_array
                     else {| rec_items := handles; rec_count := Some (rs_count result) |}),
           set_heap h w1)
      end
  end.

(** The message of the [NotFoundError] is built inside the callback of
    [exec]: when the id cannot be printed the callback throws there, and
    neither [resolve] nor [reject] is reached. *)
Definition getById (tableName : string) (id : Js.Value) (w : World DB)
  : Outcome loc * World DB :=
  match models w !! tableName with
  | None => (Rejected TypeError, w)
  | Some model =>
      let '(reply, d) := model_query B model "id" id (db w) in
      let w1 := called (Query model "id" id) d w in
      match reply with
      | inl err => (Rejected (DbFailure err), w1)
      | inr result =>
          let '(handles, h) :=
            alloc_all (dom (protos w1)) model (rs_items result) (heap w1) in
          match handles with
          | first :: _ => (Resolved first, set_heap h w1)
          | [] =>
              match Js.toString id with
              | Some text =>
                  (Rejected (NotFoundError
                     (tableName +:+ " with id: " +:+ text +:+ " doesn't exist")),
                   set_heap h w1)
              | None => (Pending, set_heap h w1)
              end
          end
      end
  end.

(** [options[key] = value] on the object that [validateDuplicate] builds from
    [{}].  [key] is printed to a property name, which can throw.  The name
    [__proto__] is no property of [options]: the assignment reaches the setter
    inherited from [Object.prototype], which makes [value] the prototype of
    [options] and adds no property; the filter keeps its own properties. *)
Definition set_option (options : Obj) (key value : Js.Value) : Error + Obj :=
  match Js.toString key with
  | None => inl TypeError
  | Some name =>
      if decide (name = "__proto__") then inr options
      else inr (<[name := value]> options)
  end.

(** The callback of [keys.forEach], line 122:
    [options[key] = { eq: values[index] }].  Once a key has thrown, the loop
    is over. *)
Definition add_criterion (values : Js.Value) (options : Error + Obj)
    '((index, key) : nat * Js.Value) : Error + Obj :=
  match options with
  | inl e => inl e
  | inr options => set_option options key (Js.VObj [("eq", Js.index values index)])
  end.

(** [validateDuplicate], lines 114-127: the filter built from [keys] and
    [values], or the error thrown while building it. *)
Definition duplicate_options (keys values : Js.Value) : Error + Obj :=
  match keys with
  | Js.VArr ks =>
      match Js.length values with
      | None => inl TypeError
      | Some values_length =>
          if Js.count_strict_ne (length ks) values_length then
            match Js.toString keys, Js.toString values with
            | Some k, Some v =>
                inl (BadRequestError
                       ("size of " +:+ k +:+ " and " +:+ v +:+ " do not match."))
            | _, _ => inl TypeError
            end
          else foldl (add_criterion values) (inr ∅) (imap pair ks)
      end
  | _ => set_option ∅ keys (Js.VObj [("eq", values)])
  end.

(** One turn of the loop [for (const i in keys)], lines 134-142; [None] once
    a key or a value could not be printed. *)
Definition conflict_step (ks : list Js.Value) (values : Js.Value)
    (str : option string) (i : nat) : option string :=
  str ← str;
  key ← Js.toString (Js.index (Js.VArr ks) i);
  value ← Js.toString (Js.index values i);
  let str := str +:+ (key +:+ ": " +:+ value) in
  Some (if (Z.of_nat i <? Z.of_nat (length ks) - 1)%Z then str +:+ ", " else str).

(** [validateDuplicate], lines 131-149: the message of the [ConflictError];
    [None] when building it throws. *)
Definition conflict_message (tableName : string) (keys values : Js.Value)
  : option string :=
  match keys with
  | Js.VArr ks =>
      let str := Some (tableName +:+ " with [ ") in
      str ← foldl (conflict_step ks values) str (seq 0 (length ks));
      Some (str +:+ " ] already exists")
  | _ =>
      key ← Js.toString keys;
      value ← Js.toString values;
      Some (tableName +:+ " with " +:+ key +:+ ": " +:+ value +:+ " already exists")
  end.

Definition validateDuplicate (tableName : string) (keys values : Js.Value)
    (w : World DB) : Outcome unit * World DB :=
  match duplicate_options keys values with
  | inl e => (Rejected e, w)
  | inr options =>
      match search tableName options w with
      | (Rejected e, w1) => (Rejected e, w1)
      | (Pending, w1) => (Pending, w1)
      | (Resolved records, w1) =>
          if (0 <? length (rec_items records))%nat then
            match conflict_message tableName keys values with
            | Some message => (Rejected (ConflictError message), w1)
            | None => (Rejected TypeError, w1)
            end
          else (Resolved tt, w1)
      end
  end.

(** [dbItem.save(cb)]: the request carries the instance as it is now.  The
    method is inherited from the model: an own attribute [save] shadows it,
    and a replaced prototype does not have it, and then what is called is no
    function.  [None] stands for that [TypeError], and for a [dbItem] that is
    no instance. *)
Definition dbItem_save (dbItem : loc) (w : World DB) : option (option DbError * World DB) :=
  inst ← heap w !! dbItem;
  match protos w !! dbItem, inst_fields inst !! "save" with
  | None, None =>
      let '(err, d) := instance_save B (inst_model inst) (inst_fields inst) (db w) in
      Some (err, called (Save (inst_model inst) (inst_fields inst)) d w)
  | _, _ => None
  end.

(** [dbItem.delete(cb)], likewise. *)
Definition dbItem_delete (dbItem : loc) (w : World DB) : option (option DbError * World DB) :=
  inst ← heap w !! dbItem;
  match protos w !! dbItem, inst_fields inst !! "delete" with
  | None, None =>
      let '(err, d) := instance_delete B (inst_model inst) (inst_fields inst) (db w) in
      Some (err, called (Delete (inst_model inst) (inst_fields inst)) d w)
  | _, _ => None
  end.

Definition create (tableName : string) (data : Obj) (w : World DB)
  : Outcome loc * World DB :=
  match models w !! tableName with
  | None => (Rejected TypeError, w)
  | Some model =>
      let '(dbItem, h) :=
        alloc (dom (protos w))
          {| inst_model := model; inst_fields := model_new B model data |} (heap w) in
      match dbItem_save dbItem (set_heap h w) with
      | None => (Rejected TypeError, set_heap h w)
      | Some (Some err, w1) => (Rejected (DbFailure err), w1)
      | Some (None, w1) => (Resolved dbItem, w1)
      end
  end.

(** [Object.keys(data)] *)
Definition object_keys (data : Obj) : list string := (map_to_list data).*1.

(** Whether [dbItem["__proto__"] = value] finds a data property to write: an
    own attribute of that name, or one of the replaced prototype, or no
    prototype at all.  Otherwise it finds the setter inherited from
    [Object.prototype]. *)
Definition writes_proto_property (fields : Obj) (proto : option Js.Value) : bool :=
  match fields !! "__proto__", proto with
  | Some _, _ => true
  | None, Some Js.VNull => true
  | None, Some (Js.VObj props) => Js.has_own "__proto__" props
  | None, _ => false
  end.

(** [dbItem[key] = value].  Any name but [__proto__] becomes or stays an own
    attribute.  For [__proto__] the setter, when it is reached, replaces the
    prototype by an object or [null] and ignores anything else; no attribute
    is added. *)
Definition assign (dbItem : loc) (key : string) (value : Js.Value) (w : World DB)
  : World DB :=
  match heap w !! dbItem with
  | None => w
  | Some inst =>
      if bool_decide (key = "__proto__")
         && negb (writes_proto_property (inst_fields inst) (protos w !! dbItem))
      then
        if Js.is_prototype value then set_protos (<[dbItem := value]> (protos w)) w
        else w
      else
        set_heap
          (<[dbItem := {| inst_model := inst_model inst;
                          inst_fields := <[key := value]> (inst_fields inst) |}]>
             (heap w))
          w
  end.

Definition update (dbItem : loc) (data : Obj) (w : World DB)
  : Outcome loc * World DB :=
  let w0 :=
    foldl (λ w key, assign dbItem key (default Js.VUndefined (data !! key)) w)
      w (object_keys data) in
  match dbItem_save dbItem w0 with
  | None => (Rejected TypeError, w0)
  | Some (Some err, w1) => (Rejected (DbFailure err), w1)
  | Some (None, w1) => (Resolved dbItem, w1)
  end.

(** [delete(dbItem)] ([remove] in the factory variant). *)
Definition delete (dbItem : loc) (w : World DB) : Outcome loc * World DB :=
  match dbItem_delete dbItem w with
  | None => (Rejected TypeError, w)
  | Some (Some err, w1) => (Rejected (DbFailure err), w1)
  | Some (None, w1) => (Resolved dbItem, w1)
  end.

(** The error, if any, with which the backend answers request [c] in database
    state [d]. *)
Definition failure (c : Call) (d : DB) : option DbError :=
  match c with
  | Scan model filter =>
      match (model_scan B model filter d).1 with inl err => Some err | inr _ => None end
  | Query model attribute value =>
      match (model_query B model attribute value d).1 with
      | inl err => Some err
      | inr _ => None
      end
  | Save model item => (instance_save B model item d).1
  | Delete model item => (instance_delete B model item d).1
  end.

(** The six operations as data, and what each settles with. *)
Inductive Operation : Type :=
| OpSearch (tableName : string) (searchOptions : Obj)
| OpGetById (tableName : string) (id : Js.Value)
| OpValidateDuplicate (tableName : string) (keys values : Js.Value)
| OpCreate (tableName : string) (data : Obj)
| OpUpdate (dbItem : loc) (data : Obj)
| OpDelete (dbItem : loc).

Inductive Settled : Type :=
| SRecords (records : Records)
| SRecord (dbItem : loc)
| SUndefined.

Definition settle {A} (f : A → Settled) (r : Outcome A * World DB)
  : Outcome Settled * World DB :=
  match r with
  | (Resolved a, w) => (Resolved (f a), w)
  | (Rejected e, w) => (Rejected e, w)
  | (Pending, w) => (Pending, w)
  end.

Definition run (op : Operation) (w : World DB) : Outcome Settled * World DB :=
  match op with
  | OpSearch tableName searchOptions => settle SRecords (search tableName searchOptions w)
  | OpGetById tableName id => settle SRecord (getById tableName id w)
  | OpValidateDuplicate tableName keys values =>
      settle (λ _, SUndefined) (validateDuplicate tableName keys values w)
  | OpCreate tableName data => settle SRecord (create tableName data w)
  | OpUpdate dbItem data => settle SRecord (update dbItem data w)
  | OpDelete dbItem => settle SRecord (delete dbItem w)
  end.

End Service.

(** [keys] and [values] agree in number: a list of names with a list of as
    many values, or a single name with its value. *)
Definition matching_arity (keys values : Js.Value) : Prop :=
  match keys with
  | Js.VArr ks => ∃ vs, values = Js.VArr vs ∧ length ks = length vs
  | _ => True
  end.

(** [key] and [value] are a pair of [keys] and [values]: the entries at one
    position of the two lists, or the single key and its value. *)
Definition paired (keys values key value : Js.Value) : Prop :=
  match keys with
  | Js.VArr ks => ∃ i : nat, ks !! i = Some key ∧ value = Js.index values i
  | _ => key = keys ∧ value = values
  end.

(** How a message spells one key/value pair, when both can be printed. *)
Definition pair_text (key value : Js.Value) : option string :=
  name ← Js.toString key;
  text ← Js.toString value;
  Some (name +:+ ": " +:+ text).

(** Every key prints, as a name other than [__proto__]. *)
Definition plain_names (keys values : Js.Value) : Prop :=
  ∀ key value, paired keys values key value →
    ∃ name, Js.toString key = Some name ∧ name ≠ "__proto__".

(** [message] spells every pair of [keys] and [values]. *)
Definition enumerates (message : string) (keys values : Js.Value) : Prop :=
  ∀ key value, paired keys values key value →
    ∃ name text,
      Js.toString key = Some name ∧ Js.toString value = Some text
      ∧ Js.occurs_in (name +:+ ": " +:+ text) message.

(** [options] is the equality filter of [keys] and [values]: a criterion for
    every pair, and nothing but criteria [{eq: value}] of pairs. *)
Definition equality_filter (options : Obj) (keys values : Js.Value) : Prop :=
  (∀ key value, paired keys values key value →
     ∃ name, Js.toString key = Some name ∧ is_Some (options !! name))
  ∧ (∀ name criterion, options !! name = Some criterion →
       ∃ key value, paired keys values key value
                    ∧ Js.toString key = Some name
                    ∧ criterion = Js.VObj [("eq", value)]).

End DynamoDbService.
(** ** An in-memory backend

    One inhabitant of [Backend], used to run the operations on concrete inputs.
    It stands for no part of the repository, and no theorem about the service
    depends on it: rows are kept per table, a row is replaced by [save] and
    removed by [delete] through its [id], and a scan filter is a conjunction of
    [{eq: value}] conditions. *)

Module Memory.

Fixpoint value_eqb (a b : Js.Value) : bool :=
  match a, b with
  | Js.VUndefined, Js.VUndefined => true
  | Js.VNull, Js.VNull => true
  | Js.VBool x, Js.VBool y => Bool.eqb x y
  | Js.VNum x, Js.VNum y => (Js.num x =? Js.num y)%Z
  | Js.VStr x, Js.VStr y => String.eqb x y
  | Js.VArr xs, Js.VArr ys =>
      (fix all2 (l1 l2 : list Js.Value) : bool :=
         match l1, l2 with
         | [], [] => true
         | x :: l1', y :: l2' => value_eqb x y && all2 l1' l2'
         | _, _ => false
         end) xs ys
  | Js.VObj ps, Js.VObj qs =>
      (fix all2 (l1 l2 : list (string * Js.Value)) : bool :=
         match l1, l2 with
         | [], [] => true
         | (k, x) :: l1', (k', y) :: l2' =>
             String.eqb k k' && value_eqb x y && all2 l1' l2'
         | _, _ => false
         end) ps qs
  | _, _ => false
  end.

Definition DB := list (string * Obj).

(** [item[attribute]] is [value]. *)
Definition has (attribute : string) (value : Js.Value) (item : Obj) : bool :=
  match item !! attribute with
  | Some x => value_eqb x value
  | None => false
  end.

Definition rows (model : Model) (d : DB) : list Obj :=
  omap (λ '(table, item), if String.eqb table (model_name model) then Some item else None) d.

Definition answer (items : list Obj) : ResultSet :=
  {| rs_items := items; rs_count := Z.of_nat (length items) |}.

(** The [(attribute, value)] pairs of a filter, when every condition is an
    equality. *)
Definition conditions (filter : Obj) : option (list (string * Js.Value)) :=
  mapM (λ '(attribute, condition),
          match condition with
          | Js.VObj [("eq", value)] => Some (attribute, value)
          | _ => None
          end)
       (map_to_list filter).

Definition unsupported : DbError :=
  {| db_code := "ValidationException"; db_message := "unsupported comparison" |}.

Definition missing_key : DbError :=
  {| db_code := "ValidationException"; db_message := "missing hash key" |}.

Definition scan (model : Model) (filter : Obj) (d : DB) : (DbError + ResultSet) * DB :=
  match conditions filter with
  | None => (inl unsupported, d)
  | Some conds =>
      (inr (answer (List.filter (λ item, forallb (λ '(a, v), has a v item) conds)
                      (rows model d))), d)
  end.

Definition query (model : Model) (attribute : string) (value : Js.Value) (d : DB)
  : (DbError + ResultSet) * DB :=
  match value with
  | Js.VUndefined | Js.VNull => (inl missing_key, d)
  | _ => (inr (answer (List.filter (has attribute value) (rows model d))), d)
  end.

(** The rows other than the one of [model] with the given [id]. *)
Definition without (model : Model) (id : Js.Value) (d : DB) : DB :=
  List.filter (λ '(table, item), negb (String.eqb table (model_name model) && has "id" id item)) d.

Definition save (model : Model) (item : Obj) (d : DB) : option DbError * DB :=
  match item !! "id" with
  | None | Some Js.VUndefined | Some Js.VNull => (Some missing_key, d)
  | Some id => (None, (model_name model, item) :: without model id d)
  end.

Definition delete (model : Model) (item : Obj) (d : DB) : option DbError * DB :=
  match item !! "id" with
  | None | Some Js.VUndefined | Some Js.VNull => (Some missing_key, d)
  | Some id => (None, without model id d)
  end.

Definition backend : Backend DB :=
  {| model_new := λ _ data, data;
     model_scan := scan;
     model_query := query;
     instance_save := save;
     instance_delete := delete |}.

(** The configuration of the usage example in [docs/DynamoDB.md], cut down to
    the [countries] table. *)
Definition Country : Entity :=
  {| ent_fields :=
       Some (list_to_map
               [("id", Js.VObj [("hashKey", Js.VBool true); ("required", Js.VBool true)]);
                ("name", Js.VObj [("required", Js.VBool true)]);
                ("countryCode", Js.VObj [("required", Js.VBool true)]);
                ("isDeleted", Js.VObj [("default", Js.VBool false)])]);
     ent_options :=
       Some (Js.VObj [("throughput",
                       Js.VObj [("read", Js.VNum {| Js.num := 10; Js.num_safe := eq_refl |});
                                ("write", Js.VNum {| Js.num := 5; Js.num_safe := eq_refl |})])]) |}.

Definition config : Config := {| entities := {["countries" := Country]} |}.

Definition names : Js.Value := Js.VArr [Js.VStr "name"; Js.VStr "countryCode"].

Definition canada_values : Js.Value := Js.VArr [Js.VStr "Canada"; Js.VStr "CAN"].

Definition canada : Obj :=
  list_to_map [("id", Js.VStr "c1"); ("name", Js.VStr "Canada");
               ("countryCode", Js.VStr "CAN"); ("isDeleted", Js.VBool false)].

(** The service once its models are in place, over the database [d]. *)
Definition ready (d : DB) : World DB :=
  DynamoDbService.run_microtasks (DynamoDbService.constructor config d).

Definition countries : Model := getDynamooseModel "countries" Country.

(** A world in which handle [0] is the record of Canada as [getById] returned it. *)
Definition retrieved : World DB :=
  (DynamoDbService.getById backend "countries" (Js.VStr "c1")
     (ready [("countries", canada)])).2.

End Memory.

(** ** The application settings

    [src/config/default.js]: each setting is read from the environment, with a
    fallback. *)

Module Defaults.

(** [value || fallback] for a [value] read from [process.env]: a variable that
    is not set reads as [undefined], and the empty string is falsy too. *)
Definition or_default (value : option string) (fallback : string) : string :=
  match value with
  | None | Some EmptyString => fallback
  | Some s => s
  end.

Record Settings := {
  LOG_LEVEL : string;
  Service_NAME : string;
  APPLICATION_NAME : string;
  EXPORTER_URL : string;
  SERVICE_VERSION : string;
}.

(** [module.exports], for the environment [env]. *)
Definition exports (env : gmap string string) : Settings :=
  {| LOG_LEVEL := or_default (env !! "LOG_LEVEL") "debug";
     Service_NAME := or_default (env !! "Service_NAME") "data-access-library";
     APPLICATION_NAME := or_default (env !! "APPLICATION_NAME") "data-access-library";
     EXPORTER_URL := or_default (env !! "EXPORTER_URL") "";
     SERVICE_VERSION := or_default (env !! "SERVICE_VERSION") "v1" |}.

End Defaults.

(** ** A caller

    Operations issued one after the other, each awaited before the next, as in
    the usage example of [docs/DynamoDB.md].  At an [await] the microtasks
    that are queued run, those of the constructor among them; a rejection is
    caught and the caller goes on, and the [await] of a promise that is never
    settled does not return, so nothing is issued after it. *)

Module Session.

Fixpoint run_all {DB : Type} (B : Backend DB) (ops : list DynamoDbService.Operation)
    (w : World DB) : World DB :=
  match ops with
  | [] => w
  | op :: rest =>
      let '(outcome, w1) := DynamoDbService.run B op w in
      let w2 := DynamoDbService.run_microtasks w1 in
      match outcome with
      | Pending => w2
      | _ => run_all B rest w2
      end
  end.

End Session.
(** * Properties *)

Import DynamoDbService.

(** ** Strings *)

Lemma append_assoc (a b c : string) : (a +:+ b) +:+ c = a +:+ (b +:+ c).
Proof.
  induction a as [|ch a IH]; [reflexivity|].
  change (String ch ((a +:+ b) +:+ c) = String ch (a +:+ b +:+ c)).
  by rewrite IH.
Qed.

Lemma append_empty_r (a : string) : a +:+ "" = a.
Proof.
  induction a as [|ch a IH]; [reflexivity|].
  change (String ch (a +:+ "") = String ch a). by rewrite IH.
Qed.

Lemma occurs_in_refl (s : string) : Js.occurs_in s s.
Proof. exists "", "". change (s = s +:+ ""). by rewrite append_empty_r. Qed.

Lemma occurs_in_append_l (s a m : string) :
  Js.occurs_in s m → Js.occurs_in s (a +:+ m).
Proof.
  intros (before & after & ->). exists (a +:+ before), after.
  by rewrite append_assoc.
Qed.

Lemma occurs_in_append_r (s a m : string) :
  Js.occurs_in s m → Js.occurs_in s (m +:+ a).
Proof.
  intros (before & after & ->). exists before, (after +:+ a).
  by rewrite !append_assoc.
Qed.

Lemma occurs_in_head (s m : string) : Js.occurs_in s (s +:+ m).
Proof. apply occurs_in_append_r, occurs_in_refl. Qed.

Create HintDb occurs.

#[local] Hint Resolve occurs_in_refl occurs_in_append_l occurs_in_append_r
  occurs_in_head : occurs.

Lemma occurs_in_join (sep p : string) (parts : list string) :
  p ∈ parts → Js.occurs_in p (Js.join sep parts).
Proof.
  induction parts as [|q [|q' rest] IH]; intros Hin.
  - by apply elem_of_nil in Hin.
  - apply list_elem_of_singleton in Hin as ->. apply occurs_in_refl.
  - change (Js.occurs_in p (q +:+ sep +:+ Js.join sep (q' :: rest))).
    apply elem_of_cons in Hin as [->|Hin]; auto with occurs.
Qed.

(** ** The filter of [validateDuplicate] *)

Lemma build_inl (values : Js.Value) (ps : list (nat * Js.Value)) (e : Error) :
  foldl (add_criterion values) (inl e) ps = inl e.
Proof.
  induction ps as [|[i key] ps IH]; [done|]. cbn [foldl add_criterion]. apply IH.
Qed.

(** Building the filter throws nothing but a [TypeError]. *)
Lemma build_error (values : Js.Value) (ps : list (nat * Js.Value)) :
  ∀ (options : Obj) e, foldl (add_criterion values) (inr options) ps = inl e → e = TypeError.
Proof.
  induction ps as [|[i key] ps IH]; intros options e; cbn [foldl add_criterion]; [done|].
  destruct (set_option options key _) as [e0|o] eqn:Hset; [|apply IH].
  rewrite build_inl. intros [= <-]. unfold set_option in Hset.
  destruct (Js.toString key); [by destruct (decide _)|by injection Hset as <-].
Qed.

Lemma duplicate_options_error (keys values : Js.Value) (e : Error) :
  duplicate_options keys values = inl e →
  e = TypeError ∨ ∃ message, e = BadRequestError message.
Proof.
  unfold duplicate_options.
  assert (Hscalar : ∀ value, set_option ∅ keys value = inl e → e = TypeError).
  { unfold set_option. intros value. destruct (Js.toString keys); [|by intros [= <-]].
    by destruct (decide _). }
  destruct keys as [| | | | |ks|]; try (intros ?%Hscalar; by left).
  destruct (Js.length values) as [len|]; [|intros [= <-]; by left].
  destruct (Js.count_strict_ne _ len).
  - destruct (Js.toString _) as [k|]; [|intros [= <-]; by left].
    destruct (Js.toString _) as [v|]; intros [= <-]; [right; by eexists|by left].
  - intros ?%build_error. by left.
Qed.

(** ** The table models *)

Lemma lookup_assigned_models (jobs : list (string * Model)) :
  NoDup jobs.*1 →
  ∀ (ms : gmap string Model) key model,
    foldl (λ ms '(key, model), <[key := model]> ms) ms jobs !! key = Some model
    ↔ ((key, model) ∈ jobs) ∨ ((key ∉ jobs.*1) ∧ ms !! key = Some model).
Proof.
  induction jobs as [|[k m] jobs IH]; intros Hnodup ms key model; cbn [foldl].
  - split; [intros ?; right; split; [apply not_elem_of_nil|done]|].
    intros [[]%elem_of_nil|[_ ?]]; done.
  - cbn in Hnodup. apply NoDup_cons in Hnodup as [Hk Hnodup].
    rewrite (IH Hnodup). cbn. rewrite !elem_of_cons. split.
    + intros [Hin|[Hout Hms]]; [by left; right|].
      destruct (decide (key = k)) as [->|Hne].
      * rewrite lookup_insert_eq in Hms. injection Hms as ->. by left; left.
      * rewrite lookup_insert_ne in Hms by done. right. split; [|done].
        by intros [?|?].
    + intros [[[= -> ->]|Hin]|[Hout Hms]].
      * right. split; [done|]. by rewrite lookup_insert_eq.
      * by left.
      * right. split; [tauto|]. rewrite lookup_insert_ne; [done|].
        intros ->. tauto.
Qed.

Section Properties.

Context {DB : Type} (B : Backend DB).

Implicit Types (w : World DB) (tableName : string) (keys values id : Js.Value).

(** ** The handles of a reply *)

(** [alloc_all] makes one new handle per item, in the order of the items, all
    different, none of them in use, and leaves the handles there were as they
    are. *)
Lemma alloc_all_spec (used : gset loc) (model : Model) (items : list Obj) :
  ∀ (h : gmap loc Instance) handles h',
    alloc_all used model items h = (handles, h') →
    Forall2 (λ l item,
               h !! l = None
               ∧ h' !! l = Some {| inst_model := model; inst_fields := item |})
      handles items
    ∧ NoDup handles
    ∧ (∀ l, l ∈ handles → l ∉ used)
    ∧ (∀ l inst, h !! l = Some inst → h' !! l = Some inst).
Proof.
  induction items as [|item items IH]; intros h handles h' Halloc; cbn in Halloc.
  - injection Halloc as <- <-.
    repeat split; [constructor|constructor|by intros l []%elem_of_nil|done].
  - unfold alloc in Halloc.
    set (l0 := fresh (dom h ∪ used)) in *.
    set (inst0 := {| inst_model := model; inst_fields := item |}) in *.
    destruct (alloc_all used model items (<[l0:=inst0]> h)) as [ls h2] eqn:Hrest.
    injection Halloc as <- <-.
    destruct (IH _ _ _ Hrest) as (Hall & Hnodup & Hunused & Hkeep).
    assert (Hl0 : l0 ∉ dom h ∪ used) by apply is_fresh.
    assert (Hfresh : h !! l0 = None).
    { apply not_elem_of_dom. intros ?. apply Hl0, elem_of_union. by left. }
    assert (Hnew : ∀ l, l ∈ ls → l ≠ l0 ∧ h !! l = None).
    { intros l (i & Hi)%list_elem_of_lookup.
      destruct (Forall2_lookup_l _ _ _ _ _ Hall Hi) as (it & _ & Hnone & _).
      by apply lookup_insert_None in Hnone as [? ?]. }
    repeat split.
    + constructor.
      * split; [done|]. apply Hkeep. apply lookup_insert_eq.
      * eapply Forall2_impl; [exact Hall|].
        intros l it [Hnone Hsome]. split; [|done].
        by apply lookup_insert_None in Hnone as [? ?].
    + constructor; [|done]. intros Hin. by destruct (Hnew _ Hin).
    + intros l [->|Hin]%elem_of_cons; [|by apply Hunused].
      intros ?. apply Hl0, elem_of_union. by right.
    + intros l inst Hl. apply Hkeep. rewrite lookup_insert_ne; [done|].
      intros <-. congruence.
Qed.

(** ** [search] on an empty result *)

(** C4. When the scan succeeds and matches nothing (its [count] is zero, or
    it holds no item), [search] resolves, and what it resolves with is an array
    ([SRecords], not [SUndefined]) without elements. *)
Theorem search_empty tableName (searchOptions : Obj) w model result d :
  models w !! tableName = Some model →
  model_scan B model searchOptions (db w) = (inr result, d) →
  rs_count result = 0%Z ∨ rs_items result = [] →
  ∃ records w',
    search B tableName searchOptions w = (Resolved records, w')
    ∧ rec_items records = []
    ∧ run B (OpSearch tableName searchOptions) w = (Resolved (SRecords records), w').
Proof.
  intros Hmodel Hscan Hnone. cbn [run]. unfold search. rewrite Hmodel, Hscan.
  destruct (alloc_all _ model (rs_items result) _) as [handles h] eqn:Halloc.
  eexists _, _. split; [reflexivity|]. split; [|reflexivity].
  destruct Hnone as [->| Hitems]; [reflexivity|].
  rewrite Hitems in Halloc. cbn in Halloc. injection Halloc as <- _.
  by destruct (_ =? _)%Z.
Qed.

Lemma search_rejection tableName (searchOptions : Obj) w e w1 :
  search B tableName searchOptions w = (Rejected e, w1) →
  e = TypeError ∨ ∃ err, e = DbFailure err.
Proof.
  unfold search. destruct (models w !! tableName) as [model|].
  - destruct (model_scan B model _ (db w)) as [[err|result] d].
    + intros [= <- _]. eauto.
    + by destruct (alloc_all _ model _ _).
  - intros [= <- _]. auto.
Qed.

Lemma search_settles tableName (searchOptions : Obj) w :
  (search B tableName searchOptions w).1 ≠ Pending.
Proof.
  unfold search. destruct (models w !! tableName) as [model|]; [|done].
  destruct (model_scan B model _ (db w)) as [[err|result] d]; [done|].
  by destruct (alloc_all _ model _ _).
Qed.

(** ** The assignments of [update] *)

Lemma assign_frame1 (dbItem : loc) (key : string) (value : Js.Value) w :
  models (assign dbItem key value w) = models w
  ∧ microtasks (assign dbItem key value w) = microtasks w
  ∧ db (assign dbItem key value w) = db w
  ∧ log (assign dbItem key value w) = log w
  ∧ (heap w !! dbItem = None → assign dbItem key value w = w).
Proof.
  unfold assign. destruct (heap w !! dbItem) as [inst|]; [|done].
  destruct (_ && _); [|done]. by destruct (Js.is_prototype value).
Qed.

(** The assignments of [update] touch nothing but the handle. *)
Lemma assign_frame (dbItem : loc) (data : Obj) (ks : list string) w :
  let w0 := foldl (λ w key, assign dbItem key (default Js.VUndefined (data !! key)) w) w ks in
  models w0 = models w ∧ microtasks w0 = microtasks w
  ∧ db w0 = db w ∧ log w0 = log w
  ∧ (heap w !! dbItem = None → w0 = w).
Proof.
  revert w. induction ks as [|a ks IH]; intros w; cbn [foldl]; [done|].
  destruct (IH (assign dbItem a (default Js.VUndefined (data !! a)) w))
    as (Hmodels & Hjobs & Hdb & Hlog & Hnone).
  destruct (assign_frame1 dbItem a (default Js.VUndefined (data !! a)) w)
    as (Hmodels1 & Hjobs1 & Hdb1 & Hlog1 & Hnone1).
  cbn zeta in *. rewrite Hmodels, Hjobs, Hdb, Hlog. repeat split; try done.
  intros Hw. rewrite (Hnone1 Hw) in *. by apply Hnone.
Qed.

(** ** Backend errors *)

(** C7. An operation sends the backend at most one request, so nothing is
    retried.  When it sends none, it does not reject with a backend error.
    When it sends one, it rejects with a backend error exactly when the backend
    failed that request, and the error is the backend's own, unchanged. *)
Theorem backend_error_surfaced (op : Operation) w :
  (log (run B op w).2 = log w
   ∧ ∀ err, (run B op w).1 ≠ Rejected (DbFailure err))
  ∨ (∃ c, log (run B op w).2 = log w ++ [c]
          ∧ ∀ err, failure B c (db w) = Some err
                   ↔ (run B op w).1 = Rejected (DbFailure err)).
Proof.
  destruct op as [tableName searchOptions|tableName id|tableName keys values
                 |tableName data|dbItem data|dbItem]; cbn [run].
  - unfold search. destruct (models w !! tableName) as [model|]; [|by left].
    right. exists (Scan model searchOptions). unfold failure.
    destruct (model_scan B model searchOptions (db w)) as [[e|result] d].
    + split; [done|]. cbn. intros err. split; congruence.
    + destruct (alloc_all _ model _ _) as [handles h]. split; [done|].
      cbn. intros err. split; discriminate.
  - unfold getById. destruct (models w !! tableName) as [model|]; [|by left].
    right. exists (Query model "id" id). unfold failure.
    destruct (model_query B model "id" id (db w)) as [[e|result] d].
    + split; [done|]. cbn. intros err. split; congruence.
    + destruct (alloc_all _ model _ _) as [[|first handles] h];
        [destruct (Js.toString id)|];
        (split; [done|]); cbn; intros err; split; discriminate.
  - unfold validateDuplicate.
    destruct (duplicate_options keys values) as [e|options] eqn:Hoptions.
    { left. split; [done|]. cbn. intros err [= ->].
      apply duplicate_options_error in Hoptions as [?|[? ?]]; discriminate. }
    unfold search. destruct (models w !! tableName) as [model|]; [|by left].
    right. exists (Scan model options). unfold failure.
    destruct (model_scan B model options (db w)) as [[e|result] d].
    + split; [done|]. cbn. intros err. split; congruence.
    + destruct (alloc_all _ model _ _) as [handles h].
      destruct (_ <? _)%nat; [destruct (conflict_message _ _ _)|];
        (split; [done|]); cbn; intros err; split; discriminate.
  - unfold create. destruct (models w !! tableName) as [model|]; [|by left].
    unfold alloc, dbItem_save. cbn. rewrite lookup_insert_eq. cbn.
    destruct (protos w !! _); [by left|].
    destruct (model_new B model data !! "save"); [by left|].
    right. exists (Save model (model_new B model data)). unfold failure.
    destruct (instance_save B model _ (db w)) as [[e|] d];
      (split; [done|]); cbn; intros err; split; congruence.
  - unfold update, dbItem_save.
    destruct (assign_frame dbItem data (object_keys data) w)
      as (_ & _ & Hdb & Hlog & _).
    cbn zeta in *. set (w0 := foldl _ w _) in *.
    destruct (heap w0 !! dbItem) as [inst|]; cbn; [|by left].
    destruct (protos w0 !! dbItem); [by left|].
    destruct (inst_fields inst !! "save"); [by left|].
    right. exists (Save (inst_model inst) (inst_fields inst)). unfold failure.
    rewrite <- Hdb.
    destruct (instance_save B _ _ (db w0)) as [[e|] d];
      (split; [by rewrite <- Hlog|]); cbn; intros err; split; congruence.
  - unfold delete, dbItem_delete.
    destruct (heap w !! dbItem) as [inst|]; [|by left]. cbn.
    destruct (protos w !! dbItem); [by left|].
    destruct (inst_fields inst !! "delete"); [by left|].
    right. exists (Delete (inst_model inst) (inst_fields inst)). unfold failure.
    destruct (instance_delete B _ _ (db w)) as [[e|] d];
      (split; [done|]); cbn; intros err; split; congruence.
Qed.

(** ** The filter, key by key *)

Lemma set_option_inr (options options' : Obj) (key value : Js.Value) :
  set_option options key value = inr options' →
  ∃ name, Js.toString key = Some name
          ∧ ((name = "__proto__" ∧ options' = options)
             ∨ (name ≠ "__proto__" ∧ options' = <[name := value]> options)).
Proof.
  unfold set_option. destruct (Js.toString key) as [name|]; [|discriminate].
  destruct (decide (name = "__proto__")); intros [= <-]; exists name; auto.
Qed.

Lemma set_option_plain (options : Obj) (key value : Js.Value) (name : string) :
  Js.toString key = Some name → name ≠ "__proto__" →
  set_option options key value = inr (<[name := value]> options).
Proof. intros Hname Hplain. unfold set_option. by rewrite Hname, decide_False. Qed.

Lemma build_app (values : Js.Value) (ps qs : list (nat * Js.Value)) :
  ∀ (options options' : Obj),
    foldl (add_criterion values) (inr options) (ps ++ qs) = inr options' →
    ∃ middle, foldl (add_criterion values) (inr options) ps = inr middle
              ∧ foldl (add_criterion values) (inr middle) qs = inr options'.
Proof.
  intros options options'. rewrite foldl_app.
  destruct (foldl (add_criterion values) (inr options) ps) as [e|middle]; [|eauto].
  by rewrite build_inl.
Qed.

(** Every criterion of the filter is that of a pair. *)
Lemma build_criteria (values : Js.Value) (ps : list (nat * Js.Value)) :
  ∀ (options options' : Obj),
    foldl (add_criterion values) (inr options) ps = inr options' →
    ∀ name criterion, options' !! name = Some criterion →
      options !! name = Some criterion
      ∨ ∃ i key, (i, key) ∈ ps ∧ Js.toString key = Some name
                 ∧ criterion = Js.VObj [("eq", Js.index values i)].
Proof.
  induction ps as [|[i key] ps IH]; intros options options'; cbn [foldl add_criterion].
  - intros [= <-]. auto.
  - destruct (set_option options key _) as [e|middle] eqn:Hset;
      [by rewrite build_inl|].
    intros Hrest name criterion Hin.
    destruct (IH _ _ Hrest _ _ Hin) as [Hhere|(j & key' & Hj & Hname & ->)].
    + apply set_option_inr in Hset as (name' & Hname' & [[_ ->]|[_ ->]]); [by left|].
      destruct (decide (name' = name)) as [->|Hne].
      * rewrite lookup_insert_eq in Hhere. injection Hhere as <-.
        right. exists i, key. split; [apply elem_of_cons; by left|done].
      * rewrite lookup_insert_ne in Hhere by done. by left.
    + right. exists j, key'. split; [apply elem_of_cons; by right|done].
Qed.

(** A name that no key prints as keeps what it had. *)
Lemma build_kept (values : Js.Value) (ps : list (nat * Js.Value)) :
  ∀ (options options' : Obj) name,
    foldl (add_criterion values) (inr options) ps = inr options' →
    (∀ i key, (i, key) ∈ ps → Js.toString key ≠ Some name) →
    options' !! name = options !! name.
Proof.
  induction ps as [|[i key] ps IH]; intros options options' name; cbn [foldl add_criterion].
  - by intros [= <-].
  - destruct (set_option options key _) as [e|middle] eqn:Hset;
      [by rewrite build_inl|].
    intros Hrest Hother. rewrite (IH _ _ name Hrest).
    + apply set_option_inr in Hset as (name' & Hname' & [[_ ->]|[_ ->]]); [done|].
      apply lookup_insert_ne. intros ->.
      apply (Hother i key); [apply elem_of_cons; by left|done].
    + intros j key' Hin. apply (Hother j). apply elem_of_cons. by right.
Qed.

(** With keys that print, none of them as [__proto__], the filter is built,
    and has a criterion under every name. *)
Lemma build_defined (values : Js.Value) (ps : list (nat * Js.Value)) :
  (∀ i key, (i, key) ∈ ps → ∃ name, Js.toString key = Some name ∧ name ≠ "__proto__") →
  ∀ options : Obj,
    ∃ options',
      foldl (add_criterion values) (inr options) ps = inr options'
      ∧ ∀ name,
          is_Some (options !! name)
          ∨ (∃ i key, (i, key) ∈ ps ∧ Js.toString key = Some name) →
          is_Some (options' !! name).
Proof.
  induction ps as [|[i key] ps IH]; intros Hplain options; cbn [foldl add_criterion].
  - exists options. split; [done|].
    by intros name [?|(? & ? & []%elem_of_nil & _)].
  - destruct (Hplain i key) as (name0 & Hname0 & Hne0); [apply elem_of_cons; by left|].
    rewrite (set_option_plain _ _ _ _ Hname0 Hne0).
    destruct (IH (λ j key' Hin, Hplain j key' (proj2 (elem_of_cons _ _ _) (or_intror Hin)))
                 (<[name0 := Js.VObj [("eq", Js.index values i)]]> options))
      as (options' & Hbuild & Hdefined).
    exists options'. split; [done|]. intros name Hcase. apply Hdefined.
    destruct (decide (name0 = name)) as [<-|Hne].
    + left. by rewrite lookup_insert_eq.
    + rewrite lookup_insert_ne by done.
      destruct Hcase as [?|(j & key' & [[= -> ->]|Hin]%elem_of_cons & Hname)];
        [by left|congruence|].
      right. by exists j, key'.
Qed.

Lemma matching_arity_passes (ks vs : list Js.Value) :
  length ks = length vs →
  Js.length (Js.VArr vs) = Some (Js.Count (length vs))
  ∧ Js.count_strict_ne (length ks) (Js.Count (length vs)) = false.
Proof. intros ->. cbn. by rewrite Nat.eqb_refl. Qed.

(** The filter holds nothing but criteria of pairs. *)
Lemma duplicate_options_criteria (keys values : Js.Value) (options : Obj) :
  duplicate_options keys values = inr options →
  ∀ name criterion, options !! name = Some criterion →
    ∃ key value, paired keys values key value
                 ∧ Js.toString key = Some name
                 ∧ criterion = Js.VObj [("eq", value)].
Proof.
  unfold duplicate_options, paired.
  assert (Hscalar : set_option ∅ keys (Js.VObj [("eq", values)]) = inr options →
            ∀ name criterion, options !! name = Some criterion →
              ∃ key value, (key = keys ∧ value = values)
                           ∧ Js.toString key = Some name
                           ∧ criterion = Js.VObj [("eq", value)]).
  { intros (name' & Hname' & [[_ ->]|[_ ->]])%set_option_inr name criterion; [done|].
    intros [<- <-]%lookup_singleton_Some. by exists keys, values. }
  destruct keys as [| | | | |ks|]; try exact Hscalar. clear Hscalar.
  destruct (Js.length values) as [len|]; [|discriminate].
  destruct (Js.count_strict_ne _ len).
  { by destruct (Js.toString (Js.VArr ks)), (Js.toString values). }
  intros Hbuild name criterion Hin.
  destruct (build_criteria _ _ _ _ Hbuild _ _ Hin) as [Hempty|(i & key & Hi & Hname & ->)].
  - by rewrite lookup_empty in Hempty.
  - apply (elem_of_lookup_imap_1 pair) in Hi as (j & key' & [= -> ->] & Hkey).
    exists key', (Js.index values j). eauto.
Qed.

(** With matching arity and keys that print, none of them as [__proto__], the
    filter is built, and it is the equality filter of the pairs. *)
Lemma duplicate_options_filter (keys values : Js.Value) :
  matching_arity keys values →
  plain_names keys values →
  ∃ options,
    duplicate_options keys values = inr options
    ∧ equality_filter options keys values.
Proof.
  intros Harity Hplain.
  assert (∃ options,
            duplicate_options keys values = inr options
            ∧ ∀ key value, paired keys values key value →
                ∃ name, Js.toString key = Some name ∧ is_Some (options !! name))
    as (options & Hoptions & Hdefined).
  { unfold duplicate_options, plain_names, paired in *.
    assert (Hscalar : (∀ key value, key = keys ∧ value = values →
                         ∃ name, Js.toString key = Some name ∧ name ≠ "__proto__") →
              ∃ options,
                set_option ∅ keys (Js.VObj [("eq", values)]) = inr options
                ∧ ∀ key value, key = keys ∧ value = values →
                    ∃ name, Js.toString key = Some name ∧ is_Some (options !! name)).
    { intros Hone. destruct (Hone keys values) as (name & Hname & Hne); [done|].
      eexists. split; [by apply set_option_plain|].
      intros ?? [-> ->]. exists name. by rewrite lookup_insert_eq. }
    destruct keys as [| | | | |ks|]; try (by apply Hscalar). clear Hscalar.
    destruct Harity as (vs & -> & Hlen).
    destruct (matching_arity_passes ks vs Hlen) as [-> ->].
    destruct (build_defined (Js.VArr vs) (imap pair ks)) with (options := (∅ : Obj))
      as (options & Hbuild & Hdefined).
    { intros i key (j & key' & [= -> ->] & Hkey)%(elem_of_lookup_imap_1 pair).
      apply (Hplain key' (Js.index (Js.VArr vs) j)). by exists j. }
    exists options. split; [done|]. intros key value (i & Hkey & _).
    destruct (Hplain key (Js.index (Js.VArr vs) i)) as (name & Hname & _);
      [by exists i|].
    exists name. split; [done|]. apply Hdefined. right. exists i, key.
    split; [|done]. by apply (elem_of_lookup_imap_2 pair). }
  exists options. split; [done|]. split; [done|].
  by apply duplicate_options_criteria.
Qed.

(** ** The message of the [ConflictError] *)

Lemma conflict_loop_none (ks : list Js.Value) (values : Js.Value) (turns : list nat) :
  foldl (conflict_step ks values) None turns = None.
Proof. by induction turns. Qed.

Lemma conflict_loop (ks : list Js.Value) (values : Js.Value) :
  ∀ (len a : nat) (str : string),
    a + len = length ks →
    foldl (conflict_step ks values) (Some str) (seq a len)
    = parts ← mapM (λ i, pair_text (Js.index (Js.VArr ks) i) (Js.index values i))
                (seq a len);
      Some (str +:+ Js.join ", " parts).
Proof.
  unfold pair_text. induction len as [|len IH]; intros a str Hlen.
  - cbn. by rewrite append_empty_r.
  - cbn [seq foldl mapM]. unfold conflict_step at 2.
    cbn [mbind option_bind].
    destruct (Js.toString (Js.index (Js.VArr ks) a)) as [key|];
      [|by rewrite conflict_loop_none].
    destruct (Js.toString (Js.index values a)) as [value|];
      [|by rewrite conflict_loop_none].
    cbn [mbind option_bind]. rewrite IH by lia.
    destruct (mapM _ (seq (S a) len)) as [parts|] eqn:Hparts; [|done].
    cbn [mbind option_bind mret option_ret]. f_equal.
    apply length_mapM in Hparts. rewrite length_seq in Hparts.
    destruct len as [|len].
    + destruct parts; [|done].
      destruct (Z.ltb_spec (Z.of_nat a) (Z.of_nat (length ks) - 1)); [lia|].
      cbn. by rewrite append_empty_r.
    + destruct parts as [|part parts]; [done|].
      destruct (Z.ltb_spec (Z.of_nat a) (Z.of_nat (length ks) - 1)); [|lia].
      change (Js.join ", " ((key +:+ ": " +:+ value) :: part :: parts))
        with ((key +:+ ": " +:+ value) +:+ ", " +:+ Js.join ", " (part :: parts)).
      by rewrite !append_assoc.
Qed.

(** A message that was built spells every pair. *)
Lemma conflict_message_enumerates tableName keys values message :
  conflict_message tableName keys values = Some message →
  enumerates message keys values.
Proof.
  unfold enumerates, paired.
  assert (Hscalar :
            (key ← Js.toString keys;
             value ← Js.toString values;
             Some (tableName +:+ " with " +:+ key +:+ ": " +:+ value
                     +:+ " already exists")) = Some message →
            ∀ key value, key = keys ∧ value = values →
              ∃ name text,
                Js.toString key = Some name ∧ Js.toString value = Some text
                ∧ Js.occurs_in (name +:+ ": " +:+ text) message).
  { destruct (Js.toString keys) as [name|] eqn:Hname; [|discriminate].
    destruct (Js.toString values) as [text|] eqn:Htext; [|discriminate].
    cbn. intros [= <-] ?? [-> ->]. exists name, text. split; [done|]. split; [done|].
    exists (tableName +:+ " with "), " already exists". by rewrite !append_assoc. }
  destruct keys as [| | | | |ks|]; try exact Hscalar. clear Hscalar.
  unfold conflict_message. rewrite conflict_loop by done.
  destruct (mapM _ (seq 0 (length ks))) as [parts|] eqn:Hparts; [|discriminate].
  intros [= <-] key value (i & Hkey & ->).
  apply mapM_Some in Hparts.
  destruct (Forall2_lookup_l _ _ _ i i Hparts) as (part & Hpart & Htext).
  { apply lookup_seq. apply lookup_lt_Some in Hkey. lia. }
  cbn [Js.index] in Htext. rewrite nth_lookup, Hkey in Htext. cbn in Htext.
  unfold pair_text in Htext.
  destruct (Js.toString key) as [name|]; [|discriminate].
  destruct (Js.toString (Js.index values i)) as [text|]; [|discriminate].
  injection Htext as <-. exists name, text. split; [done|]. split; [done|].
  apply occurs_in_append_r, occurs_in_append_l, occurs_in_join.
  by apply list_elem_of_lookup_2 in Hpart.
Qed.

(** When every key and value prints, the message is built. *)
Lemma conflict_message_built tableName keys values :
  (∀ key value, paired keys values key value →
     is_Some (Js.toString key) ∧ is_Some (Js.toString value)) →
  is_Some (conflict_message tableName keys values).
Proof.
  unfold paired.
  assert (Hscalar :
            (∀ key value, key = keys ∧ value = values →
               is_Some (Js.toString key) ∧ is_Some (Js.toString value)) →
            is_Some (key ← Js.toString keys;
                     value ← Js.toString values;
                     Some (tableName +:+ " with " +:+ key +:+ ": " +:+ value
                             +:+ " already exists"))).
  { intros Hone. by destruct (Hone keys values) as [[name ->] [text ->]]. }
  destruct keys as [| | | | |ks|]; try exact Hscalar. clear Hscalar.
  intros Hprint. unfold conflict_message. rewrite conflict_loop by done.
  assert (is_Some (mapM (λ i, pair_text (Js.index (Js.VArr ks) i) (Js.index values i))
                     (seq 0 (length ks)))) as [parts ->]; [|done].
  apply mapM_is_Some, Forall_forall. intros i [_ Hi]%elem_of_seq.
  destruct (lookup_lt_is_Some_2 ks i) as [key Hkey]; [lia|].
  destruct (Hprint key (Js.index values i)) as [[name Hname] [text Htext]];
    [by exists i|].
  cbn [Js.index compose]. rewrite nth_lookup, Hkey. cbn.
  unfold pair_text. by rewrite Hname, Htext.
Qed.

(** ** [validateDuplicate]: the arity check *)


(** ** [getById] on a key that is not there *)

(** C3. When the query for [id] in the table succeeds and finds nothing,
    [getById] rejects with [NotFoundError], and both the table name and the id
    occur in the message.  The id is one that prints, as every string and
    every number does. *)
Theorem getById_not_found tableName id text w model result d :
  models w !! tableName = Some model →
  model_query B model "id" id (db w) = (inr result, d) →
  rs_items result = [] →
  Js.toString id = Some text →
  ∃ message w',
    getById B tableName id w = (Rejected (NotFoundError message), w')
    ∧ message = tableName +:+ " with id: " +:+ text +:+ " doesn't exist"
    ∧ Js.occurs_in tableName message
    ∧ Js.occurs_in text message.
Proof.
  intros Hmodel Hquery Hempty Htext. unfold getById.
  rewrite Hmodel, Hquery, Hempty, Htext. cbn [alloc_all].
  eexists _, _. split; [reflexivity|]. split; [reflexivity|].
  split; auto with occurs.
Qed.

(** ** [validateDuplicate] with a single key *)


(** ** [validateDuplicate]: the duplicate check *)


(** ** [update] writes to the handle first *)

Lemma elem_of_object_keys (data : Obj) (k : string) :
  k ∈ object_keys data ↔ is_Some (data !! k).
Proof.
  unfold object_keys. rewrite list_elem_of_fmap. split.
  - intros ([k' v] & -> & Hin). apply elem_of_map_to_list in Hin. by exists v.
  - intros [v Hv]. exists (k, v). split; [done|]. by apply elem_of_map_to_list.
Qed.

(** What the assignments leave: the handle keeps its model; every name given
    but [__proto__] reads the value given; without [__proto__] among the names
    that attribute and the prototypes are as they were; no other handle is
    touched. *)
Lemma assign_fold (dbItem : loc) (data : Obj) (ks : list string) :
  ∀ w inst,
    heap w !! dbItem = Some inst →
    let w0 := foldl (λ w key, assign dbItem key (default Js.VUndefined (data !! key)) w)
                w ks in
    ∃ fields,
      heap w0
      = <[dbItem := {| inst_model := inst_model inst; inst_fields := fields |}]> (heap w)
      ∧ (∀ key, key ≠ "__proto__" →
           fields !! key
           = if decide (key ∈ ks) then Some (default Js.VUndefined (data !! key))
             else inst_fields inst !! key)
      ∧ ("__proto__" ∉ ks →
           fields !! "__proto__" = inst_fields inst !! "__proto__"
           ∧ protos w0 = protos w)
      ∧ (∀ l, l ≠ dbItem → protos w0 !! l = protos w !! l).
Proof.
  induction ks as [|a ks IH]; intros w inst Hinst; cbn [foldl].
  - exists (inst_fields inst). split; [|split; [|done]].
    + destruct inst. cbn. by rewrite insert_id.
    + intros key _. rewrite decide_False; [done|]. apply not_elem_of_nil.
  - set (value := default Js.VUndefined (data !! a)).
    assert (Hstep : assign dbItem a value w
              = if bool_decide (a = "__proto__")
                   && negb (writes_proto_property (inst_fields inst)
                              (protos w !! dbItem))
                then
                  if Js.is_prototype value
                  then set_protos (<[dbItem := value]> (protos w)) w else w
                else
                  set_heap
                    (<[dbItem := {| inst_model := inst_model inst;
                                    inst_fields := <[a := value]> (inst_fields inst) |}]>
                       (heap w)) w)
      by (unfold assign; by rewrite Hinst).
    rewrite Hstep. clear Hstep.
    destruct (bool_decide (a = "__proto__")
              && negb (writes_proto_property (inst_fields inst) (protos w !! dbItem)))
      eqn:Hsetter.
    + apply andb_prop in Hsetter as [Ha%bool_decide_eq_true _]. subst a.
      set (w1 := if Js.is_prototype value
                 then set_protos (<[dbItem := value]> (protos w)) w else w).
      assert (Hheap1 : heap w1 = heap w) by (unfold w1; by destruct (Js.is_prototype _)).
      assert (Hprotos1 : ∀ l, l ≠ dbItem → protos w1 !! l = protos w !! l).
      { intros l Hne. unfold w1. destruct (Js.is_prototype _); [|done].
        cbn. by apply lookup_insert_ne. }
      destruct (IH w1 inst) as (fields & Hheap & Hkeys & _ & Hothers);
        [by rewrite Hheap1|].
      cbn zeta in *. exists fields. rewrite Hheap, Hheap1. split; [done|].
      split; [|split].
      * intros key Hne. rewrite (Hkeys key Hne).
        destruct (decide (key ∈ ks)) as [Hin|Hout].
        -- rewrite decide_True; [done|]. apply elem_of_cons. by right.
        -- rewrite decide_False; [done|]. by intros [?|?]%elem_of_cons.
      * intros Hout. exfalso. apply Hout, elem_of_cons. by left.
      * intros l Hne. by rewrite Hothers, Hprotos1.
    + set (inst1 := {| inst_model := inst_model inst;
                       inst_fields := <[a := value]> (inst_fields inst) |}).
      destruct (IH (set_heap (<[dbItem := inst1]> (heap w)) w) inst1)
        as (fields & Hheap & Hkeys & Hproto & Hothers);
        [cbn; apply lookup_insert_eq|].
      cbn zeta in *. exists fields. rewrite Hheap. subst inst1. cbn in *.
      split; [apply insert_insert_eq|]. split; [|split].
      * intros key Hne. rewrite (Hkeys key Hne).
        destruct (decide (key ∈ ks)) as [Hin|Hout].
        -- rewrite decide_True; [done|]. apply elem_of_cons. by right.
        -- destruct (decide (key = a)) as [->|Hother].
           ++ rewrite decide_True by (apply elem_of_cons; by left).
              by rewrite lookup_insert_eq.
           ++ rewrite decide_False by (intros [?|?]%elem_of_cons; done).
              by rewrite lookup_insert_ne.
      * intros Hout. destruct Hproto as [-> ->].
        { intros Hin. apply Hout, elem_of_cons. by right. }
        split; [|done]. apply lookup_insert_ne. intros ->.
        apply Hout, elem_of_cons. by left.
      * done.
Qed.

(** What [update] does, whatever the backend answers.  [w0] is the world once
    the attributes are overwritten, [fields] what the handle then holds; the
    save is sent when the handle still has the method. *)
Lemma update_unfold (dbItem : loc) (data : Obj) w inst :
  heap w !! dbItem = Some inst →
  ∃ w0 fields,
    heap w0
    = <[dbItem := {| inst_model := inst_model inst; inst_fields := fields |}]> (heap w)
    ∧ models w0 = models w ∧ microtasks w0 = microtasks w
    ∧ db w0 = db w ∧ log w0 = log w
    ∧ (∀ l, l ≠ dbItem → protos w0 !! l = protos w !! l)
    ∧ (∀ key, key ≠ "__proto__" → fields !! key = (data ∪ inst_fields inst) !! key)
    ∧ (data !! "__proto__" = None →
         fields = data ∪ inst_fields inst ∧ protos w0 = protos w)
    ∧ update B dbItem data w
      = match protos w0 !! dbItem, fields !! "save" with
        | None, None =>
            match instance_save B (inst_model inst) fields (db w) with
            | (Some err, d) =>
                (Rejected (DbFailure err), called (Save (inst_model inst) fields) d w0)
            | (None, d) =>
                (Resolved dbItem, called (Save (inst_model inst) fields) d w0)
            end
        | _, _ => (Rejected TypeError, w0)
        end.
Proof.
  intros Hinst. unfold update.
  destruct (assign_frame dbItem data (object_keys data) w)
    as (Hmodels & Hjobs & Hdb & Hlog & _).
  destruct (assign_fold dbItem data (object_keys data) w inst Hinst)
    as (fields & Hheap & Hkeys & Hproto & Hothers).
  cbn zeta in *. set (w0 := foldl _ w _) in *.
  assert (Hunion : ∀ key, key ≠ "__proto__" →
            fields !! key = (data ∪ inst_fields inst) !! key).
  { intros key Hne. rewrite (Hkeys key Hne).
    destruct (data !! key) as [v|] eqn:Hk.
    - rewrite decide_True by (apply elem_of_object_keys; by rewrite Hk).
      symmetry. by apply lookup_union_Some_l.
    - rewrite decide_False by (rewrite elem_of_object_keys, Hk; by intros [? ?]).
      symmetry. by apply lookup_union_r. }
  exists w0, fields. do 7 (split; [done|]). split.
  - intros Hnone.
    assert (Hout : "__proto__" ∉ object_keys data)
      by (rewrite elem_of_object_keys, Hnone; by intros [? ?]).
    destruct (Hproto Hout) as [Hsame Hprotos]. split; [|done].
    apply map_eq. intros key. destruct (decide (key = "__proto__")) as [->|Hne];
      [|by apply Hunion].
    rewrite Hsame. symmetry. by apply lookup_union_r.
  - unfold dbItem_save. rewrite Hheap, lookup_insert_eq. cbn. rewrite Hdb.
    destruct (protos w0 !! dbItem); [done|].
    destruct (fields !! "save"); [done|].
    by destruct (instance_save B (inst_model inst) fields (db w)) as [[err|] d].
Qed.


(** ** Round trips through a backend that reads its own writes

    Whether a record saved or deleted is seen by a later [getById] is decided
    by the backend.  For a backend under the contract [ReadsOwnWrites] the
    service adds nothing that could break the round trip. *)

(** X21. For a backend that reads its own writes ([ReadsOwnWrites]): after
    [update] has resolved, [getById] with the [id] the updated record carries
    resolves with a handle that reads the new value of every attribute the
    mapping names, [__proto__] apart, and the handle's former value of every
    other attribute. *)
Lemma update_then_getById tableName (dbItem : loc) (data : Obj) w inst id w1 :
  ReadsOwnWrites B →
  heap w !! dbItem = Some inst →
  models w !! tableName = Some (inst_model inst) →
  (data ∪ inst_fields inst) !! "id" = Some id →
  update B dbItem data w = (Resolved dbItem, w1) →
  ∃ found w2 inst2,
    getById B tableName id w1 = (Resolved found, w2)
    ∧ heap w2 !! found = Some inst2
    ∧ (∀ key value, data !! key = Some value → key ≠ "__proto__" →
         inst_fields inst2 !! key = Some value)
    ∧ (∀ key, data !! key = None → inst_fields inst2 !! key = inst_fields inst !! key).
Proof.
  intros Hcontract Hinst Hmodel Hid.
  destruct (update_unfold dbItem data w inst Hinst)
    as (w0 & fields & Hheap & Hmodels & _ & Hdb & Hlog & _ & Hkeys & Hproto & ->).
  destruct (protos w0 !! dbItem); [discriminate|].
  destruct (fields !! "save"); [discriminate|].
  destruct (instance_save B _ _ (db w)) as [[err|] d] eqn:Hsave; [discriminate|].
  intros [= <-].
  assert (Hid' : fields !! "id" = Some id) by (by rewrite Hkeys).
  destruct (saved_is_found B Hcontract _ _ id _ _ Hid' Hsave) as (count & d'' & Hquery).
  unfold getById. cbn [models called db]. rewrite Hmodels, Hmodel, Hquery.
  cbn [rs_items alloc_all alloc]. eexists _, _, _. split; [reflexivity|]. cbn.
  split; [apply lookup_insert_eq|]. cbn. split.
  - intros key value Hkey Hne. rewrite (Hkeys key Hne). by apply lookup_union_Some_l.
  - intros key Hkey. destruct (decide (key = "__proto__")) as [->|Hne].
    + destruct (Hproto Hkey) as [-> _]. by apply lookup_union_r.
    + rewrite (Hkeys key Hne). by apply lookup_union_r.
Qed.

(** X22. For a backend that reads its own writes ([ReadsOwnWrites]): after
    [delete] has resolved, [getById] with the [id] of the deleted record finds
    nothing: it rejects with [NotFoundError] when the id prints, and is never
    settled when printing the id into the message throws. *)
Lemma delete_then_getById tableName (dbItem : loc) w inst id w1 :
  ReadsOwnWrites B →
  heap w !! dbItem = Some inst →
  models w !! tableName = Some (inst_model inst) →
  inst_fields inst !! "id" = Some id →
  delete B dbItem w = (Resolved dbItem, w1) →
  ∃ w2,
    getById B tableName id w1
    = (match Js.toString id with
       | Some text =>
           Rejected (NotFoundError
                       (tableName +:+ " with id: " +:+ text +:+ " doesn't exist"))
       | None => Pending
       end, w2).
Proof.
  intros Hcontract Hinst Hmodel Hid. unfold delete, dbItem_delete.
  rewrite Hinst. cbn.
  destruct (protos w !! dbItem); [discriminate|].
  destruct (inst_fields inst !! "delete"); [discriminate|].
  destruct (instance_delete B _ _ (db w)) as [[err|] d] eqn:Hdelete; [discriminate|].
  intros [= <-].
  destruct (deleted_is_gone B Hcontract _ _ id _ _ Hid Hdelete) as (count & d'' & Hquery).
  unfold getById. cbn [models called db]. rewrite Hmodel, Hquery.
  cbn. destruct (Js.toString id); by eexists.
Qed.

(** ** The table models *)

Lemma run_frame (op : Operation) w :
  models (run B op w).2 = models w ∧ microtasks (run B op w).2 = microtasks w.
Proof.
  destruct op as [tableName searchOptions|tableName id|tableName keys values
                 |tableName data|dbItem data|dbItem]; cbn [run].
  - unfold search. destruct (models w !! tableName) as [model|]; [|done].
    destruct (model_scan B model searchOptions (db w)) as [[e|result] d]; [done|].
    by destruct (alloc_all _ model _ _).
  - unfold getById. destruct (models w !! tableName) as [model|]; [|done].
    destruct (model_query B model "id" id (db w)) as [[e|result] d]; [done|].
    destruct (alloc_all _ model _ _) as [[|first handles] h]; [|done].
    by destruct (Js.toString id).
  - unfold validateDuplicate. destruct (duplicate_options keys values); [done|].
    unfold search. destruct (models w !! tableName) as [model|]; [|done].
    destruct (model_scan B model _ (db w)) as [[e|result] d]; [done|].
    destruct (alloc_all _ model _ _). destruct (_ <? _)%nat; [|done].
    by destruct (conflict_message _ _ _).
  - unfold create. destruct (models w !! tableName) as [model|]; [|done].
    unfold alloc, dbItem_save. cbn. rewrite lookup_insert_eq. cbn.
    destruct (protos w !! _); [done|].
    destruct (model_new B model data !! "save"); [done|].
    by destruct (instance_save B model _ (db w)) as [[e|] d].
  - unfold update, dbItem_save.
    destruct (assign_frame dbItem data (object_keys data) w) as (Hmodels & Hjobs & _).
    cbn zeta in *. destruct (heap _ !! dbItem) as [inst|]; [|done]. cbn.
    destruct (protos _ !! dbItem); [done|].
    destruct (inst_fields inst !! "save"); [done|].
    by destruct (instance_save B _ _ _) as [[e|] d].
  - unfold delete, dbItem_delete. destruct (heap w !! dbItem) as [inst|]; [|done].
    cbn. destruct (protos w !! dbItem); [done|].
    destruct (inst_fields inst !! "delete"); [done|].
    by destruct (instance_delete B _ _ (db w)) as [[e|] d].
Qed.

(** C8. Once the constructor's assignments have run, [models] has one entry
    per configured entity, under the table name, holding the model built for
    that name; and no operation changes [models]: whatever the operation and
    its outcome, the mapping after it is the mapping before it. *)
Theorem models_fixed :
  (∀ (config : Config) (d : DB) key model,
     models (run_microtasks (constructor config d)) !! key = Some model
     ↔ ∃ entity, entities config !! key = Some entity
                 ∧ model = getDynamooseModel key entity)
  ∧ (∀ (op : Operation) w, models (run B op w).2 = models w).
Proof.
  split; [|intros op w; apply run_frame].
  intros config d key model. cbn [run_microtasks constructor models microtasks].
  set (job := λ '(key, entity), (key, getDynamooseModel key entity)).
  assert (Hfst : (job <$> map_to_list (entities config)).*1
                 = (map_to_list (entities config)).*1).
  { rewrite <- list_fmap_compose. apply list_fmap_ext. by intros i [k e] _. }
  rewrite lookup_assigned_models by (rewrite Hfst; apply NoDup_fst_map_to_list).
  rewrite lookup_empty, list_elem_of_fmap. split.
  - intros [([k e] & [= -> ->] & Hin)|[_ ?]]; [|done].
    apply elem_of_map_to_list in Hin. eauto.
  - intros (entity & Hentity & ->). left. exists (key, entity).
    split; [done|]. by apply elem_of_map_to_list.
Qed.

End Properties.

(** * Further properties of the operations *)

Section Coverage.

Context {DB : Type} (B : Backend DB).

Implicit Types (w : World DB) (tableName : string) (keys values id : Js.Value).

(** ** [search] and [getById] on a result that is not empty *)

(** X1. When the scan succeeds with a [count] other than zero, [search]
    resolves with the backend's array: its [count], and one handle per item in
    the order of the items.  The handles are new and pairwise different, each
    holds the attributes of its item under the model of the table, and every
    handle that existed before is as it was. *)
Theorem search_found tableName (searchOptions : Obj) w model result d :
  models w !! tableName = Some model →
  model_scan B model searchOptions (db w) = (inr result, d) →
  rs_count result ≠ 0%Z →
  ∃ records w',
    search B tableName searchOptions w = (Resolved records, w')
    ∧ rec_count records = Some (rs_count result)
    ∧ Forall2 (λ l item,
                 heap w !! l = None
                 ∧ heap w' !! l = Some {| inst_model := model; inst_fields := item |})
        (rec_items records) (rs_items result)
    ∧ NoDup (rec_items records)
    ∧ (∀ l inst, heap w !! l = Some inst → heap w' !! l = Some inst)
    ∧ db w' = d.
Proof.
  intros Hmodel Hscan Hcount. unfold search. rewrite Hmodel, Hscan.
  destruct (alloc_all _ model (rs_items result) _) as [handles h] eqn:Halloc.
  apply alloc_all_spec in Halloc as (Hall & Hnodup & _ & Hkeep).
  destruct (Z.eqb_spec (rs_count result) 0) as [?|_]; [done|].
  eexists _, _. split; [reflexivity|]. cbn. done.
Qed.

(** X2. When the query succeeds with one item or more, [getById] resolves
    with a new handle that holds the attributes of the first item under the
    model of the table, whatever follows the first item; every handle that
    existed before is as it was. *)
Theorem getById_found tableName id w model result d (item : Obj) (others : list Obj) :
  models w !! tableName = Some model →
  model_query B model "id" id (db w) = (inr result, d) →
  rs_items result = item :: others →
  ∃ found w',
    getById B tableName id w = (Resolved found, w')
    ∧ heap w !! found = None
    ∧ heap w' !! found = Some {| inst_model := model; inst_fields := item |}
    ∧ (∀ l inst, heap w !! l = Some inst → heap w' !! l = Some inst)
    ∧ db w' = d.
Proof.
  intros Hmodel Hquery Hitems. unfold getById. rewrite Hmodel, Hquery.
  destruct (alloc_all _ model (rs_items result) _) as [handles h] eqn:Halloc.
  apply alloc_all_spec in Halloc as (Hall & _ & _ & Hkeep).
  rewrite Hitems in Hall. inversion Hall as [|found ? rest ? [Hnone Hsome] _]; subst.
  eexists _, _. split; [reflexivity|]. cbn. done.
Qed.

(** ** A table without a model *)

(** X3. When [models] has no entry for the table name, [search], [getById]
    and [create] reject with [TypeError], and [validateDuplicate] rejects with
    [TypeError] or, on an arity mismatch, with [BadRequestError]; in every case
    the world is left as it was, so nothing is sent to the backend and no
    handle is made. *)
Theorem missing_model tableName w :
  models w !! tableName = None →
  (∀ searchOptions, search B tableName searchOptions w = (Rejected TypeError, w))
  ∧ (∀ id, getById B tableName id w = (Rejected TypeError, w))
  ∧ (∀ data, create B tableName data w = (Rejected TypeError, w))
  ∧ (∀ keys values,
       validateDuplicate B tableName keys values w = (Rejected TypeError, w)
       ∨ ∃ message,
           validateDuplicate B tableName keys values w
           = (Rejected (BadRequestError message), w)).
Proof.
  intros Hnone. unfold search, getById, create, validateDuplicate, search.
  rewrite Hnone. repeat split.
  intros keys values.
  destruct (duplicate_options keys values) as [e|options] eqn:Hoptions; [|by left].
  apply duplicate_options_error in Hoptions as [->|[message ->]];
    [by left|right; by eexists].
Qed.

(** X4. The constructor returns before any model is in place: whatever the
    configuration, [models] is empty until the microtasks have run, and an
    operation on a table, configured or not, issued in between rejects with
    [TypeError] without reaching the backend. *)
Theorem no_model_before_microtasks (config : Config) (d : DB) tableName :
  let w := constructor config d in
  models w = ∅
  ∧ (∀ searchOptions, search B tableName searchOptions w = (Rejected TypeError, w))
  ∧ (∀ id, getById B tableName id w = (Rejected TypeError, w))
  ∧ (∀ data, create B tableName data w = (Rejected TypeError, w))
  ∧ (∀ key entity, entities config !! key = Some entity →
       models (run_microtasks w) !! key = Some (getDynamooseModel key entity)).
Proof.
  cbn zeta. unfold search, getById, create.
  cbn [constructor models]. rewrite lookup_empty. repeat split.
  intros key entity Hentity. cbn [run_microtasks constructor models microtasks].
  set (job := λ '(key, entity), (key, getDynamooseModel key entity)).
  assert (Hfst : (job <$> map_to_list (entities config)).*1
                 = (map_to_list (entities config)).*1).
  { rewrite <- list_fmap_compose. apply list_fmap_ext. by intros i [k e] _. }
  apply lookup_assigned_models; [rewrite Hfst; apply NoDup_fst_map_to_list|].
  left. apply list_elem_of_fmap. exists (key, entity).
  split; [done|]. by apply elem_of_map_to_list.
Qed.

(** ** [validateDuplicate] without keys *)

(** X20. With an empty list of keys and of values the filter is empty, so
    [validateDuplicate] is a search of the whole table: it rejects with
    [ConflictError] as soon as that search resolves with any record, with a
    message that lists no pair, and resolves when the table shows none. *)
Theorem no_keys tableName w :
  duplicate_options (Js.VArr []) (Js.VArr []) = inr ∅
  ∧ validateDuplicate B tableName (Js.VArr []) (Js.VArr []) w
    = match search B tableName ∅ w with
      | (Resolved records, w1) =>
          match rec_items records with
          | [] => (Resolved (), w1)
          | _ :: _ =>
              (Rejected (ConflictError (tableName +:+ " with [  ] already exists")), w1)
          end
      | (Rejected e, w1) => (Rejected e, w1)
      | (Pending, w1) => (Pending, w1)
      end.
Proof.
  split; [reflexivity|]. unfold validateDuplicate.
  change (duplicate_options (Js.VArr []) (Js.VArr [])) with (@inr Error Obj ∅).
  cbn match. destruct (search B tableName ∅ w) as [[records|e|] w1]; [|done|done].
  destruct (rec_items records); cbn; [done|].
  by rewrite !append_assoc.
Qed.

(** ** Reading back what was created *)

(** X16. For a backend that reads its own writes ([ReadsOwnWrites]): after
    [create] has resolved with a handle, [getById] with the [id] the created
    record carries resolves with another, new handle, which holds the same
    attributes and model as the created one. *)
Theorem create_then_getById tableName (data : Obj) w model id (dbItem : loc) w1 :
  ReadsOwnWrites B →
  models w !! tableName = Some model →
  model_new B model data !! "id" = Some id →
  create B tableName data w = (Resolved dbItem, w1) →
  ∃ found w2,
    getById B tableName id w1 = (Resolved found, w2)
    ∧ found ≠ dbItem
    ∧ heap w2 !! found
      = Some {| inst_model := model; inst_fields := model_new B model data |}
    ∧ heap w2 !! dbItem
      = Some {| inst_model := model; inst_fields := model_new B model data |}.
Proof.
  intros Hcontract Hmodel Hid. unfold create, alloc, dbItem_save. rewrite Hmodel.
  cbn. rewrite lookup_insert_eq. cbn.
  destruct (protos w !! _); [discriminate|].
  destruct (model_new B model data !! "save"); [discriminate|].
  destruct (instance_save B model _ (db w)) as [[err|] d] eqn:Hsave; [discriminate|].
  intros [= <- <-].
  destruct (saved_is_found B Hcontract _ _ id _ _ Hid Hsave) as (count & d'' & Hquery).
  unfold getById. cbn [models called set_heap db]. rewrite Hmodel, Hquery.
  cbn [rs_items alloc_all alloc heap protos called set_heap].
  set (l := fresh (dom (heap w) ∪ dom (protos w))).
  set (h1 := <[l := _]> (heap w)).
  assert (Hfresh : h1 !! fresh (dom h1 ∪ dom (protos w)) = None).
  { apply not_elem_of_dom. intros ?.
    apply (is_fresh (dom h1 ∪ dom (protos w))), elem_of_union. by left. }
  assert (Hthere : h1 !! l
                   = Some {| inst_model := model; inst_fields := model_new B model data |})
    by apply lookup_insert_eq.
  eexists _, _. split; [reflexivity|]. cbn. split; [|split].
  - intros Heq. rewrite Heq in Hfresh. congruence.
  - apply lookup_insert_eq.
  - rewrite lookup_insert_ne; [done|]. intros Heq. rewrite Heq in Hfresh. congruence.
Qed.


(** ** [validateDuplicate]: what passes the arity check *)

Lemma validateDuplicate_rejection tableName keys values w e :
  (validateDuplicate B tableName keys values w).1 = Rejected e →
  duplicate_options keys values = inl e
  ∨ e = TypeError ∨ (∃ err, e = DbFailure err) ∨ ∃ message, e = ConflictError message.
Proof.
  unfold validateDuplicate.
  destruct (duplicate_options keys values) as [e0|options]; [intros [= <-]; by left|].
  intros Hout. right. revert Hout.
  destruct (search B tableName options w) as [[records|e1|] w1] eqn:Hsearch.
  - destruct (_ <? _)%nat; [|done].
    destruct (conflict_message _ _ _); intros [= <-]; eauto.
  - intros [= <-]. apply (search_rejection B) in Hsearch as [?|?]; auto.
  - done.
Qed.

(** X5. With a list of keys, [validateDuplicate] rejects with
    [BadRequestError] exactly when [values] has a [length] that is not the
    number of keys (a missing [length], as of a number, counts as different)
    and both arguments can be printed into the message.  When [values] is
    [undefined] or [null] reading its [length] fails first: the rejection is a
    [TypeError], and nothing is sent. *)
Theorem list_keys_arity_check tableName (ks : list Js.Value) values w :
  ((∃ message,
      (validateDuplicate B tableName (Js.VArr ks) values w).1
      = Rejected (BadRequestError message))
   ↔ ∃ len, Js.length values = Some len
            ∧ Js.count_strict_ne (length ks) len = true
            ∧ is_Some (Js.toString (Js.VArr ks))
            ∧ is_Some (Js.toString values))
  ∧ (values = Js.VUndefined ∨ values = Js.VNull →
     validateDuplicate B tableName (Js.VArr ks) values w = (Rejected TypeError, w)).
Proof.
  split; [|by intros [->| ->]]. split.
  - intros [message Hbad].
    apply validateDuplicate_rejection in Hbad
      as [Hoptions|[?|[[? ?]|[? ?]]]]; try discriminate.
    unfold duplicate_options in Hoptions.
    destruct (Js.length values) as [len|]; [|discriminate].
    exists len. split; [done|].
    destruct (Js.count_strict_ne _ len); [|by apply build_error in Hoptions].
    split; [done|].
    by destruct (Js.toString (Js.VArr ks)), (Js.toString values).
  - intros (len & Hlength & Hne & [k Hk] & [v Hv]).
    unfold validateDuplicate, duplicate_options.
    rewrite Hlength, Hne, Hk, Hv. by eexists.
Qed.

Lemma string_get_lt (s : string) :
  ∀ i : nat, i < String.length s → ∃ c, String.get i s = Some c.
Proof.
  induction s as [|ch s IH]; intros i Hi; cbn in Hi; [lia|].
  destruct i as [|i]; [by exists ch|]. cbn. apply IH. lia.
Qed.

(** X6. The arity check compares lengths only: with a list of keys that
    print, none of them as [__proto__], a string of as many characters as
    there are keys passes it, and the filter then pairs keys with single
    characters of the string, by position. *)
Theorem string_values_pass (ks : list Js.Value) (s : string) :
  String.length s = length ks →
  (∀ i key, ks !! i = Some key →
     ∃ name, Js.toString key = Some name ∧ name ≠ "__proto__") →
  ∃ options,
    duplicate_options (Js.VArr ks) (Js.VStr s) = inr options
    ∧ (∀ i key, ks !! i = Some key →
         ∃ name, Js.toString key = Some name ∧ is_Some (options !! name))
    ∧ (∀ name criterion, options !! name = Some criterion →
         ∃ i key c,
           ks !! i = Some key ∧ String.get i s = Some c
           ∧ Js.toString key = Some name
           ∧ criterion = Js.VObj [("eq", Js.VStr (String c EmptyString))]).
Proof.
  intros Hlen Hplain. unfold duplicate_options.
  cbn [Js.length Js.count_strict_ne]. rewrite Hlen, Nat.eqb_refl. cbn [negb].
  destruct (build_defined (Js.VStr s) (imap pair ks)) with (options := (∅ : Obj))
    as (options & Hbuild & Hdefined).
  { intros i key (j & key' & [= -> ->] & Hkey)%(elem_of_lookup_imap_1 pair). eauto. }
  exists options. split; [done|]. split.
  - intros i key Hkey. destruct (Hplain i key Hkey) as (name & Hname & _).
    exists name. split; [done|]. apply Hdefined. right. exists i, key.
    split; [|done]. by apply (elem_of_lookup_imap_2 pair).
  - intros name criterion Hin.
    destruct (build_criteria _ _ _ _ Hbuild _ _ Hin)
      as [Hempty|(i & key & Hi & Hname & ->)]; [by rewrite lookup_empty in Hempty|].
    apply (elem_of_lookup_imap_1 pair) in Hi as (j & key' & [= -> ->] & Hkey).
    destruct (string_get_lt s j) as [c Hc].
    { apply lookup_lt_Some in Hkey. lia. }
    exists j, key', c. cbn [Js.index]. by rewrite Hc.
Qed.

(** ** [validateDuplicate]: a key named twice *)

(** X7. In a list of keys a name may occur more than once; the filter then
    keeps one criterion for it, that of its last occurrence: the key at
    position [j], printing as a name other than [__proto__], is searched with
    the value at [j] when no later key prints as the same name. *)
Theorem last_occurrence_wins (ks : list Js.Value) values (options : Obj) (j : nat)
    key name :
  duplicate_options (Js.VArr ks) values = inr options →
  ks !! j = Some key →
  Js.toString key = Some name →
  name ≠ "__proto__" →
  (∀ j' key', j < j' → ks !! j' = Some key' → Js.toString key' ≠ Some name) →
  options !! name = Some (Js.VObj [("eq", Js.index values j)]).
Proof.
  unfold duplicate_options.
  destruct (Js.length values) as [len|]; [|discriminate].
  destruct (Js.count_strict_ne _ len).
  { by destruct (Js.toString (Js.VArr ks)), (Js.toString values). }
  intros Hbuild Hkey Hname Hplain Hlast.
  rewrite <- (take_drop_middle ks j key Hkey) in Hbuild.
  rewrite imap_app, imap_cons in Hbuild.
  apply build_app in Hbuild as (middle & _ & Hrest). cbn [foldl add_criterion] in Hrest.
  rewrite (set_option_plain _ _ _ _ Hname Hplain) in Hrest.
  assert (Hj : length (take j ks) = j).
  { apply length_take_le. apply lookup_lt_Some in Hkey. lia. }
  rewrite (build_kept _ _ _ _ name Hrest).
  - rewrite Nat.add_0_r, Hj. apply lookup_insert_eq.
  - intros i key' (n & x & [= -> ->] & Hx)%elem_of_lookup_imap_1.
    rewrite lookup_drop in Hx. apply (Hlast (S j + n)); [lia|done].
Qed.

(** ** The text of the conflict message *)

(** X8. For a list of keys and a list of as many values, all of which print,
    the message of the [ConflictError] is the table name, [" with [ "], the
    pairs [key: value] in order with [", "] between them (none before the
    first, none after the last), and [" ] already exists"]. *)
Theorem conflict_message_text tableName (ks vs : list Js.Value)
    (names texts : list string) :
  length ks = length vs →
  mapM Js.toString ks = Some names →
  mapM Js.toString vs = Some texts →
  conflict_message tableName (Js.VArr ks) (Js.VArr vs)
  = Some (tableName +:+ " with [ "
            +:+ Js.join ", " (zip_with (λ name text, name +:+ ": " +:+ text) names texts)
            +:+ " ] already exists").
Proof.
  intros Hlen Hnames Htexts. unfold conflict_message. rewrite conflict_loop by done.
  pose proof (length_mapM _ _ _ Hnames) as Hn.
  pose proof (length_mapM _ _ _ Htexts) as Ht.
  apply mapM_Some_1 in Hnames. apply mapM_Some_1 in Htexts.
  rewrite (proj2 (mapM_Some _ _
                    (zip_with (λ name text, name +:+ ": " +:+ text) names texts))).
  - cbn. by rewrite !append_assoc.
  - apply Forall2_same_length_lookup_2.
    + rewrite length_seq, length_zip_with. lia.
    + intros i x part [-> Hi]%lookup_seq
        (name & text & -> & Hname & Htext)%lookup_zip_with_Some.
      destruct (Forall2_lookup_r _ _ _ _ _ Hnames Hname) as (key & Hkey & Hk).
      destruct (Forall2_lookup_r _ _ _ _ _ Htexts Htext) as (value & Hvalue & Hv).
      cbn [Js.index Nat.add]. rewrite !nth_lookup, Hkey, Hvalue. cbn.
      unfold pair_text. by rewrite Hk, Hv.
Qed.

(** ** [create] *)

(** X9. On a table with a model, [create] makes one new handle, holding what
    the model's constructor makes of [data].  When those attributes include
    one named [save], it hides the method: [create] rejects with [TypeError]
    and sends nothing.  Otherwise it sends one save of exactly those
    attributes, resolves with the new handle when the save succeeds and
    rejects with the backend's error when it fails, and the database is in
    the state the save left it in. *)
Theorem create_new_handle tableName (data : Obj) w model :
  models w !! tableName = Some model →
  ∃ dbItem w',
    heap w !! dbItem = None
    ∧ heap w'
      = <[dbItem := {| inst_model := model; inst_fields := model_new B model data |}]>
          (heap w)
    ∧ match model_new B model data !! "save" with
      | Some _ =>
          create B tableName data w = (Rejected TypeError, w')
          ∧ log w' = log w ∧ db w' = db w
      | None =>
          create B tableName data w
          = (match (instance_save B model (model_new B model data) (db w)).1 with
             | None => Resolved dbItem
             | Some err => Rejected (DbFailure err)
             end, w')
          ∧ log w' = log w ++ [Save model (model_new B model data)]
          ∧ db w' = (instance_save B model (model_new B model data) (db w)).2
      end.
Proof.
  intros Hmodel. unfold create, alloc, dbItem_save. rewrite Hmodel.
  cbn. rewrite lookup_insert_eq. cbn.
  set (inst := {| inst_model := model; inst_fields := model_new B model data |}).
  set (dbItem := fresh (dom (heap w) ∪ dom (protos w))).
  assert (Hfresh : dbItem ∉ dom (heap w) ∪ dom (protos w)) by apply is_fresh.
  assert (Hheap : heap w !! dbItem = None).
  { apply not_elem_of_dom. intros ?. apply Hfresh, elem_of_union. by left. }
  assert (Hprotos : protos w !! dbItem = None).
  { apply not_elem_of_dom. intros ?. apply Hfresh, elem_of_union. by right. }
  rewrite Hprotos. exists dbItem.
  destruct (model_new B model data !! "save").
  - by exists (set_heap (<[dbItem := inst]> (heap w)) w).
  - destruct (instance_save B model _ (db w)) as [[err|] d];
      by exists (called (Save model (model_new B model data)) d
                   (set_heap (<[dbItem := inst]> (heap w)) w)).
Qed.

(** ** [update] and [delete] on a handle *)

(** X10. When [update] resolves, it resolves with the very handle it was
    given, and the backend has accepted one save, of the attributes the
    handle then holds.  The handle reads the value of [data] for every
    attribute [data] names, [__proto__] apart, and its former value for every
    other attribute; its model is the same, and every other handle is as it
    was. *)
Theorem update_success (dbItem : loc) (data : Obj) w inst (l : loc) w' :
  heap w !! dbItem = Some inst →
  update B dbItem data w = (Resolved l, w') →
  l = dbItem
  ∧ ∃ inst',
      heap w' !! dbItem = Some inst'
      ∧ inst_model inst' = inst_model inst
      ∧ (∀ key value, data !! key = Some value → key ≠ "__proto__" →
           inst_fields inst' !! key = Some value)
      ∧ (∀ key, data !! key = None → inst_fields inst' !! key = inst_fields inst !! key)
      ∧ (∀ l', l' ≠ dbItem → heap w' !! l' = heap w !! l')
      ∧ log w' = log w ++ [Save (inst_model inst) (inst_fields inst')]
      ∧ instance_save B (inst_model inst) (inst_fields inst') (db w) = (None, db w').
Proof.
  intros Hinst.
  destruct (update_unfold B dbItem data w inst Hinst)
    as (w0 & fields & Hheap & _ & _ & Hdb & Hlog & _ & Hkeys & Hproto & ->).
  destruct (protos w0 !! dbItem); [discriminate|].
  destruct (fields !! "save"); [discriminate|].
  destruct (instance_save B (inst_model inst) fields (db w)) as [[err|] d] eqn:Hsave;
    [discriminate|].
  intros [= <- <-]. split; [done|].
  exists {| inst_model := inst_model inst; inst_fields := fields |}. cbn.
  rewrite Hheap, Hlog. split; [apply lookup_insert_eq|]. split; [done|].
  split; [|split; [|split; [|split; [done|exact Hsave]]]].
  - intros key value Hkey Hne. rewrite (Hkeys key Hne). by apply lookup_union_Some_l.
  - intros key Hkey. destruct (decide (key = "__proto__")) as [->|Hne].
    + destruct (Hproto Hkey) as [-> _]. by apply lookup_union_r.
    + rewrite (Hkeys key Hne). by apply lookup_union_r.
  - intros l' Hne. by apply lookup_insert_ne.
Qed.

(** The world after an [update] that does not name [__proto__], whatever the
    backend answers. *)
Lemma update_plain (dbItem : loc) (data : Obj) w inst :
  heap w !! dbItem = Some inst →
  data !! "__proto__" = None →
  heap (update B dbItem data w).2
  = <[dbItem := {| inst_model := inst_model inst;
                   inst_fields := data ∪ inst_fields inst |}]> (heap w)
  ∧ protos (update B dbItem data w).2 = protos w
  ∧ log (update B dbItem data w).2
    = log w ++ match protos w !! dbItem, (data ∪ inst_fields inst) !! "save" with
               | None, None => [Save (inst_model inst) (data ∪ inst_fields inst)]
               | _, _ => []
               end.
Proof.
  intros Hinst Hplain.
  destruct (update_unfold B dbItem data w inst Hinst)
    as (w0 & fields & Hheap & _ & _ & Hdb & Hlog & _ & _ & Hproto & ->).
  destruct (Hproto Hplain) as [-> Hprotos]. rewrite Hprotos.
  destruct (protos w !! dbItem); [by rewrite app_nil_r|].
  destruct ((data ∪ inst_fields inst) !! "save"); [by rewrite app_nil_r|].
  destruct (instance_save B _ _ (db w)) as [[err|] d]; cbn; by rewrite Hlog.
Qed.

(** X11. Two updates of one handle add up, the later one winning where both
    name an attribute: for mappings that do not name [__proto__], whatever
    the backend answers to either save, the handle ends with the second
    mapping laid over the first laid over its former attributes; and when the
    handle keeps its method [save], the two saves carry the attributes after
    the first and after the second update. *)
Theorem update_twice (dbItem : loc) (first second : Obj) w inst :
  heap w !! dbItem = Some inst →
  first !! "__proto__" = None →
  second !! "__proto__" = None →
  let w2 := (update B dbItem second (update B dbItem first w).2).2 in
  heap w2 !! dbItem
  = Some {| inst_model := inst_model inst;
            inst_fields := second ∪ (first ∪ inst_fields inst) |}
  ∧ (protos w !! dbItem = None →
     (second ∪ (first ∪ inst_fields inst)) !! "save" = None →
     log w2
     = log w ++ [Save (inst_model inst) (first ∪ inst_fields inst);
                 Save (inst_model inst) (second ∪ (first ∪ inst_fields inst))]).
Proof.
  intros Hinst Hfirst Hsecond. cbn zeta.
  destruct (update_plain dbItem first w inst Hinst Hfirst) as (Hheap1 & Hprotos1 & Hlog1).
  set (w1 := (update B dbItem first w).2) in *.
  assert (Hinst1 : heap w1 !! dbItem
                   = Some {| inst_model := inst_model inst;
                             inst_fields := first ∪ inst_fields inst |})
    by (rewrite Hheap1; apply lookup_insert_eq).
  destruct (update_plain dbItem second w1 _ Hinst1 Hsecond) as (Hheap2 & _ & Hlog2).
  cbn in Hheap2, Hlog2. rewrite Hheap2, Hlog2, Hlog1, Hprotos1. split.
  - apply lookup_insert_eq.
  - intros -> Hsave. rewrite Hsave.
    apply lookup_union_None in Hsave as [_ ->]. by rewrite <- app_assoc.
Qed.

(** X12. An empty mapping is not a no-op for the backend: [update] with no
    attribute to overwrite leaves every handle as it is and, when the handle
    has its method [save], still sends a save, carrying the record's
    attributes unchanged; a handle whose [save] is hidden by an attribute or
    lost with its prototype makes it reject with [TypeError], nothing sent. *)
Theorem update_nothing (dbItem : loc) w inst :
  heap w !! dbItem = Some inst →
  heap (update B dbItem ∅ w).2 = heap w
  ∧ match protos w !! dbItem, inst_fields inst !! "save" with
    | None, None =>
        log (update B dbItem ∅ w).2
        = log w ++ [Save (inst_model inst) (inst_fields inst)]
    | _, _ => update B dbItem ∅ w = (Rejected TypeError, w)
    end.
Proof.
  intros Hinst. unfold update, object_keys, dbItem_save.
  rewrite map_to_list_empty. cbn [fmap list_fmap foldl]. rewrite Hinst. cbn.
  destruct (protos w !! dbItem); [done|].
  destruct (inst_fields inst !! "save"); [done|].
  by destruct (instance_save B _ _ (db w)) as [[err|] d].
Qed.

(** X13. [delete] asks the backend to delete the record as the handle holds
    it, and resolves with the same handle exactly when the backend accepts;
    a handle whose [delete] is hidden by an attribute or lost with its
    prototype makes it reject with [TypeError], nothing sent.  It never
    changes a handle: the deleted record's handle keeps its attributes, and a
    later [update] of it is not refused but sends a save of them again. *)
Theorem delete_keeps_handle (dbItem : loc) w inst :
  heap w !! dbItem = Some inst →
  heap (delete B dbItem w).2 = heap w
  ∧ protos (delete B dbItem w).2 = protos w
  ∧ match protos w !! dbItem, inst_fields inst !! "delete" with
    | None, None =>
        log (delete B dbItem w).2
        = log w ++ [Delete (inst_model inst) (inst_fields inst)]
        ∧ (delete B dbItem w).1
          = match (instance_delete B (inst_model inst) (inst_fields inst) (db w)).1 with
            | None => Resolved dbItem
            | Some err => Rejected (DbFailure err)
            end
        ∧ (∀ data : Obj,
             data !! "__proto__" = None →
             (data ∪ inst_fields inst) !! "save" = None →
             log (update B dbItem data (delete B dbItem w).2).2
             = log w ++ [Delete (inst_model inst) (inst_fields inst);
                         Save (inst_model inst) (data ∪ inst_fields inst)])
    | _, _ => delete B dbItem w = (Rejected TypeError, w)
    end.
Proof.
  intros Hinst.
  assert (Hheap : heap (delete B dbItem w).2 = heap w
                  ∧ protos (delete B dbItem w).2 = protos w).
  { unfold delete, dbItem_delete. rewrite Hinst. cbn.
    destruct (protos w !! dbItem); [done|].
    destruct (inst_fields inst !! "delete"); [done|].
    by destruct (instance_delete B _ _ (db w)) as [[err|] d]. }
  destruct Hheap as [Hheap Hprotos]. split; [done|]. split; [done|].
  destruct (protos w !! dbItem) eqn:Hproto;
    [unfold delete, dbItem_delete; by rewrite Hinst; cbn; rewrite Hproto|].
  destruct (inst_fields inst !! "delete") eqn:Hshadow;
    [unfold delete, dbItem_delete; by rewrite Hinst; cbn; rewrite Hproto, Hshadow|].
  assert (Hdeleted : log (delete B dbItem w).2
              = log w ++ [Delete (inst_model inst) (inst_fields inst)]
            ∧ (delete B dbItem w).1
              = match (instance_delete B (inst_model inst) (inst_fields inst) (db w)).1 with
                | None => Resolved dbItem
                | Some err => Rejected (DbFailure err)
                end).
  { unfold delete, dbItem_delete. rewrite Hinst. cbn. rewrite Hproto, Hshadow.
    by destruct (instance_delete B _ _ (db w)) as [[err|] d]. }
  destruct Hdeleted as [Hlog Hout]. split; [done|]. split; [done|].
  intros data Hplain Hsave.
  destruct (update_plain dbItem data (delete B dbItem w).2 inst) as (_ & _ & Hlog2);
    [by rewrite Hheap|done|].
  by rewrite Hlog2, Hprotos, Hproto, Hsave, Hlog, <- app_assoc.
Qed.

(** ** What the operations leave alone *)

Lemma settle_world {A} (f : A → Settled) (r : Outcome A * World DB) :
  (settle f r).2 = r.2.
Proof. by destruct r as [[a|e|] w]. Qed.

Lemma search_keeps tableName (searchOptions : Obj) w (l : loc) inst :
  heap w !! l = Some inst →
  heap (search B tableName searchOptions w).2 !! l = Some inst.
Proof.
  intros Hl. unfold search. destruct (models w !! tableName) as [model|]; [|done].
  destruct (model_scan B model searchOptions (db w)) as [[e|result] d]; [done|].
  destruct (alloc_all _ model _ _) as [handles h] eqn:Halloc.
  apply alloc_all_spec in Halloc as (_ & _ & _ & Hkeep). cbn. by apply Hkeep.
Qed.

Lemma run_handle (op : Operation) w (l : loc) inst :
  heap w !! l = Some inst →
  ∃ inst',
    heap (run B op w).2 !! l = Some inst'
    ∧ inst_model inst' = inst_model inst
    ∧ (inst_fields inst' = inst_fields inst
       ∨ ∃ data, op = OpUpdate l data
                 ∧ ∀ key, key ≠ "__proto__" →
                     inst_fields inst' !! key = (data ∪ inst_fields inst) !! key).
Proof.
  intros Hl.
  assert (Hsame : ∀ h : gmap loc Instance, h !! l = Some inst →
            ∃ inst', h !! l = Some inst' ∧ inst_model inst' = inst_model inst
              ∧ (inst_fields inst' = inst_fields inst
                 ∨ ∃ data, op = OpUpdate l data
                           ∧ ∀ key, key ≠ "__proto__" →
                               inst_fields inst' !! key
                               = (data ∪ inst_fields inst) !! key))
    by (intros h Hh; exists inst; auto).
  destruct op as [tableName searchOptions|tableName id|tableName keys values
                 |tableName data|dbItem data|dbItem]; cbn [run];
    rewrite settle_world.
  - apply Hsame. by apply search_keeps.
  - apply Hsame. unfold getById.
    destruct (models w !! tableName) as [model|]; [|done].
    destruct (model_query B model "id" id (db w)) as [[e|result] d]; [done|].
    destruct (alloc_all _ model _ _) as [handles h] eqn:Halloc.
    apply alloc_all_spec in Halloc as (_ & _ & _ & Hkeep).
    destruct handles; [destruct (Js.toString id)|]; cbn; by apply Hkeep.
  - apply Hsame. unfold validateDuplicate.
    destruct (duplicate_options keys values) as [e|options]; [done|].
    pose proof (search_keeps tableName options w l inst Hl) as Hkeep.
    destruct (search B tableName options w) as [[records|e|] w1]; [|done|done].
    destruct (_ <? _)%nat; [|done]. by destruct (conflict_message _ _ _).
  - apply Hsame. unfold create, alloc, dbItem_save.
    destruct (models w !! tableName) as [model|]; [|done].
    cbn. rewrite lookup_insert_eq. cbn.
    set (dbItem := fresh (dom (heap w) ∪ dom (protos w))).
    assert (Hne : dbItem ≠ l).
    { intros Heq. apply (is_fresh (dom (heap w) ∪ dom (protos w))).
      fold dbItem. rewrite Heq. apply elem_of_union. left.
      apply elem_of_dom. by exists inst. }
    destruct (protos w !! dbItem); [cbn; by rewrite lookup_insert_ne|].
    destruct (model_new B model data !! "save"); [cbn; by rewrite lookup_insert_ne|].
    destruct (instance_save B model _ (db w)) as [[err|] d]; cbn;
      by rewrite lookup_insert_ne.
  - destruct (decide (l = dbItem)) as [->|Hne].
    + destruct (update_unfold B dbItem data w inst Hl)
        as (w0 & fields & Hheap & _ & _ & _ & _ & _ & Hkeys & _ & ->).
      exists {| inst_model := inst_model inst; inst_fields := fields |}.
      split; [|split; [done|right; by exists data]].
      destruct (protos w0 !! dbItem); [cbn; rewrite Hheap; apply lookup_insert_eq|].
      destruct (fields !! "save"); [cbn; rewrite Hheap; apply lookup_insert_eq|].
      destruct (instance_save B _ _ (db w)) as [[err|] d]; cbn;
        rewrite Hheap; apply lookup_insert_eq.
    + apply Hsame. destruct (heap w !! dbItem) as [other|] eqn:Hother.
      * destruct (update_unfold B dbItem data w other Hother)
          as (w0 & fields & Hheap & _ & _ & _ & _ & _ & _ & _ & ->).
        destruct (protos w0 !! dbItem); [cbn; by rewrite Hheap, lookup_insert_ne|].
        destruct (fields !! "save"); [cbn; by rewrite Hheap, lookup_insert_ne|].
        destruct (instance_save B _ _ (db w)) as [[err|] d]; cbn;
          by rewrite Hheap, lookup_insert_ne.
      * unfold update, dbItem_save.
        destruct (assign_frame dbItem data (object_keys data) w) as (_ & _ & _ & _ & Hw).
        cbn zeta in Hw. by rewrite (Hw Hother), Hother.
  - apply Hsame. unfold delete, dbItem_delete.
    destruct (heap w !! dbItem) as [i|]; [|done]. cbn.
    destruct (protos w !! dbItem); [done|].
    destruct (inst_fields i !! "delete"); [done|].
    by destruct (instance_delete B _ _ (db w)) as [[err|] d].
Qed.

(** X14. No operation removes a handle or changes its model, and only
    [update] changes attributes, and only those of the handle it is given:
    after any operation a handle that existed holds the attributes it held,
    unless the operation was an [update] of that handle, in which case every
    attribute other than [__proto__] reads as in the update's mapping laid
    over them. *)
Theorem handles_persist (op : Operation) w (l : loc) inst :
  heap w !! l = Some inst →
  ∃ inst',
    heap (run B op w).2 !! l = Some inst'
    ∧ inst_model inst' = inst_model inst
    ∧ (inst_fields inst' = inst_fields inst
       ∨ ∃ data, op = OpUpdate l data
                 ∧ ∀ key, key ≠ "__proto__" →
                     inst_fields inst' !! key = (data ∪ inst_fields inst) !! key).
Proof. apply run_handle. Qed.

Lemma run_sent (op : Operation) w :
  ∃ sent,
    log (run B op w).2 = log w ++ sent
    ∧ length sent ≤ 1
    ∧ ∀ c, c ∈ sent →
        match op, c with
        | OpSearch _ searchOptions, Scan _ filter => filter = searchOptions
        | OpValidateDuplicate _ keys values, Scan _ filter =>
            duplicate_options keys values = inr filter
        | OpGetById _ id, Query _ attribute value => attribute = "id" ∧ value = id
        | OpCreate _ _, Save _ _ => True
        | OpUpdate _ _, Save _ _ => True
        | OpDelete _, Delete _ _ => True
        | _, _ => False
        end.
Proof.
  assert (Hnone : ∀ P : Call → Prop, ∀ c, c ∈ @nil Call → P c)
    by (intros P c []%elem_of_nil).
  assert (Hone : ∀ (P : Call → Prop) c0, P c0 → ∀ c, c ∈ [c0] → P c)
    by (by intros P c0 H0 c ->%list_elem_of_singleton).
  assert (Hquiet : ∀ w' : World DB, log w' = log w →
            ∃ sent, log w' = log w ++ sent ∧ length sent ≤ 1
                    ∧ ∀ c, c ∈ sent →
                        match op, c with
                        | OpSearch _ searchOptions, Scan _ filter => filter = searchOptions
                        | OpValidateDuplicate _ keys values, Scan _ filter =>
                            duplicate_options keys values = inr filter
                        | OpGetById _ id, Query _ attribute value =>
                            attribute = "id" ∧ value = id
                        | OpCreate _ _, Save _ _ => True
                        | OpUpdate _ _, Save _ _ => True
                        | OpDelete _, Delete _ _ => True
                        | _, _ => False
                        end).
  { intros w' Hlog. exists []. rewrite app_nil_r.
    split; [done|]. split; [cbn; lia|apply Hnone]. }
  destruct op as [tableName searchOptions|tableName id|tableName keys values
                 |tableName data|dbItem data|dbItem]; cbn [run];
    rewrite settle_world.
  - unfold search. destruct (models w !! tableName) as [model|]; [|by apply Hquiet].
    exists [Scan model searchOptions]. split; [|split; [cbn; lia|by apply Hone]].
    destruct (model_scan B model searchOptions (db w)) as [[e|result] d]; [done|].
    by destruct (alloc_all _ model _ _).
  - unfold getById. destruct (models w !! tableName) as [model|]; [|by apply Hquiet].
    exists [Query model "id" id]. split; [|split; [cbn; lia|by apply Hone]].
    destruct (model_query B model "id" id (db w)) as [[e|result] d]; [done|].
    destruct (alloc_all _ model _ _) as [[|first handles] h]; [|done].
    by destruct (Js.toString id).
  - unfold validateDuplicate.
    destruct (duplicate_options keys values) as [e|options] eqn:Hoptions;
      [by apply Hquiet|].
    unfold search. destruct (models w !! tableName) as [model|]; [|by apply Hquiet].
    exists [Scan model options]. split; [|split; [cbn; lia|by apply Hone]].
    destruct (model_scan B model options (db w)) as [[e|result] d]; [done|].
    destruct (alloc_all _ model _ _). destruct (_ <? _)%nat; [|done].
    by destruct (conflict_message _ _ _).
  - unfold create. destruct (models w !! tableName) as [model|]; [|by apply Hquiet].
    unfold alloc, dbItem_save. cbn. rewrite lookup_insert_eq. cbn.
    destruct (protos w !! _); [by apply Hquiet|].
    destruct (model_new B model data !! "save"); [by apply Hquiet|].
    exists [Save model (model_new B model data)]. split; [|split; [cbn; lia|by apply Hone]].
    by destruct (instance_save B model _ (db w)) as [[e|] d].
  - destruct (heap w !! dbItem) as [inst|] eqn:Hinst.
    + destruct (update_unfold B dbItem data w inst Hinst)
        as (w0 & fields & _ & _ & _ & _ & Hlog & _ & _ & _ & ->).
      destruct (protos w0 !! dbItem); [by apply Hquiet|].
      destruct (fields !! "save"); [by apply Hquiet|].
      exists [Save (inst_model inst) fields]. split; [|split; [cbn; lia|by apply Hone]].
      destruct (instance_save B _ _ (db w)) as [[err|] d]; cbn; by rewrite Hlog.
    + apply Hquiet. unfold update, dbItem_save.
      destruct (assign_frame dbItem data (object_keys data) w) as (_ & _ & _ & _ & Hw).
      cbn zeta in Hw. by rewrite (Hw Hinst), Hinst.
  - unfold delete, dbItem_delete.
    destruct (heap w !! dbItem) as [inst|]; [|by apply Hquiet]. cbn.
    destruct (protos w !! dbItem); [by apply Hquiet|].
    destruct (inst_fields inst !! "delete"); [by apply Hquiet|].
    exists [Delete (inst_model inst) (inst_fields inst)].
    split; [|split; [cbn; lia|by apply Hone]].
    by destruct (instance_delete B _ _ (db w)) as [[e|] d].
Qed.

(** X15. Each operation sends only its own kind of request: what [search]
    and [validateDuplicate] add to the log is a scan, what [getById] adds is a
    query on [id], what [create] and [update] add is a save, and what [delete]
    adds is a delete.  In particular no reading operation ever writes. *)
Theorem request_kinds (op : Operation) w :
  ∃ sent,
    log (run B op w).2 = log w ++ sent
    ∧ ∀ c, c ∈ sent →
        match op, c with
        | OpSearch _ searchOptions, Scan _ filter => filter = searchOptions
        | OpValidateDuplicate _ keys values, Scan _ filter =>
            duplicate_options keys values = inr filter
        | OpGetById _ id, Query _ attribute value => attribute = "id" ∧ value = id
        | OpCreate _ _, Save _ _ => True
        | OpUpdate _ _, Save _ _ => True
        | OpDelete _, Delete _ _ => True
        | _, _ => False
        end.
Proof. destruct (run_sent op w) as (sent & Hlog & _ & Hkind). by exists sent. Qed.

(** ** A sequence of operations *)

Lemma run_microtasks_frame w :
  heap (run_microtasks w) = heap w ∧ log (run_microtasks w) = log w
  ∧ microtasks (run_microtasks w) = [].
Proof. done. Qed.

(** X19. Through any sequence of awaited operations the table models are
    those the constructor's microtasks assign (once these have run, which the
    first [await] sees to, the mapping never changes again), every handle
    that existed is still there under the same model, and the log only grows,
    by at most one request per operation. *)
Theorem session_invariants (ops : list Operation) w :
  (microtasks w = [] → models (Session.run_all B ops w) = models w)
  ∧ (ops ≠ [] → models (Session.run_all B ops w) = models (run_microtasks w))
  ∧ (∀ (l : loc) inst, heap w !! l = Some inst →
       ∃ inst', heap (Session.run_all B ops w) !! l = Some inst'
                ∧ inst_model inst' = inst_model inst)
  ∧ ∃ sent, log (Session.run_all B ops w) = log w ++ sent
            ∧ length sent ≤ length ops.
Proof.
  assert (Hdrained : ∀ w, microtasks w = [] → models (run_microtasks w) = models w).
  { intros w' Hjobs. unfold run_microtasks. cbn. by rewrite Hjobs. }
  revert w. induction ops as [|op ops IH]; intros w; cbn [Session.run_all].
  - split; [done|]. split; [done|]. split; [eauto|]. exists []. by rewrite app_nil_r.
  - destruct (run_frame B op w) as [Hmodels Hjobs].
    destruct (run_sent op w) as (first & Hfirst & Hone & _).
    pose proof (run_handle op w) as Hhandle.
    destruct (run B op w) as [outcome w1]. cbn [snd] in *.
    set (w2 := run_microtasks w1).
    assert (Hmodels2 : models w2 = models (run_microtasks w)).
    { unfold w2, run_microtasks. cbn. by rewrite Hmodels, Hjobs. }
    destruct (IH w2) as (Hkept & _ & Hhandles & sent & Hlog & Hlen).
    assert (Hall : models (Session.run_all B ops w2) = models (run_microtasks w)
                   ∧ (∀ (l : loc) inst, heap w !! l = Some inst →
                        ∃ inst', heap (Session.run_all B ops w2) !! l = Some inst'
                                 ∧ inst_model inst' = inst_model inst)
                   ∧ ∃ sent, log (Session.run_all B ops w2) = log w ++ sent
                             ∧ length sent ≤ S (length ops)).
    { split; [by rewrite Hkept|]. split.
      - intros l inst Hl.
        destruct (Hhandle l inst Hl) as (inst1 & Hl1 & Hmodel1 & _).
        destruct (Hhandles l inst1 Hl1) as (inst' & Hl' & Hmodel').
        exists inst'. split; [done|congruence].
      - exists (first ++ sent). split.
        + rewrite Hlog. cbn. by rewrite Hfirst, app_assoc.
        + rewrite length_app. lia. }
    assert (Hstop : models w2 = models (run_microtasks w)
                    ∧ (∀ (l : loc) inst, heap w !! l = Some inst →
                         ∃ inst', heap w2 !! l = Some inst'
                                  ∧ inst_model inst' = inst_model inst)
                    ∧ ∃ sent, log w2 = log w ++ sent ∧ length sent ≤ S (length ops)).
    { split; [done|]. split.
      - intros l inst Hl.
        destruct (Hhandle l inst Hl) as (inst1 & Hl1 & Hmodel1 & _). by exists inst1.
      - exists first. split; [done|]. lia. }
    assert (Hcase : models (match outcome with
                            | Pending => w2
                            | _ => Session.run_all B ops w2
                            end) = models (run_microtasks w)
                    ∧ (∀ (l : loc) inst, heap w !! l = Some inst →
                         ∃ inst', heap (match outcome with
                                        | Pending => w2
                                        | _ => Session.run_all B ops w2
                                        end) !! l = Some inst'
                                  ∧ inst_model inst' = inst_model inst)
                    ∧ ∃ sent, log (match outcome with
                                   | Pending => w2
                                   | _ => Session.run_all B ops w2
                                   end) = log w ++ sent
                              ∧ length sent ≤ S (length ops))
      by (by destruct outcome).
    destruct Hcase as (Hm & Hh & Hs). split; [|split; [done|split; [done|done]]].
    intros Hnone. by rewrite Hm, Hdrained.
Qed.

(** ** An update that names [__proto__] *)

(** A replaced prototype is never restored by the assignments of [update]. *)
Lemma assign_detached (dbItem : loc) (data : Obj) (ks : list string) :
  ∀ w,
    is_Some (protos w !! dbItem) →
    is_Some (protos (foldl (λ w key,
                              assign dbItem key (default Js.VUndefined (data !! key)) w)
                       w ks) !! dbItem).
Proof.
  induction ks as [|a ks IH]; intros w Hproto; cbn [foldl]; [done|].
  apply IH. unfold assign. destruct (heap w !! dbItem) as [inst|]; [|done].
  destruct (_ && _); [|done].
  destruct (Js.is_prototype _); [|done]. cbn. by rewrite lookup_insert_eq.
Qed.

Lemma update_detached (dbItem : loc) (data : Obj) w :
  is_Some (protos w !! dbItem) →
  ∃ w0, update B dbItem data w = (Rejected TypeError, w0)
        ∧ log w0 = log w ∧ db w0 = db w.
Proof.
  intros Hproto. unfold update, dbItem_save.
  destruct (assign_frame dbItem data (object_keys data) w) as (_ & _ & Hdb & Hlog & _).
  destruct (assign_detached dbItem data (object_keys data) w Hproto) as [p Hp].
  cbn zeta in *. set (w0 := foldl _ w _) in *. exists w0.
  destruct (heap w0 !! dbItem) as [inst|]; cbn; [|done].
  by rewrite Hp.
Qed.

(** X23. An update that names [__proto__] with an object or [null], on a
    record as it was retrieved, writes no attribute: it replaces the
    prototype of the record, which thereby loses the methods of its model.
    The attributes stay as they were, nothing is sent, and this update and
    every later [update] or [delete] of the handle rejects with [TypeError]
    without a request. *)
Theorem prototype_replaced (dbItem : loc) (value : Js.Value) w inst :
  heap w !! dbItem = Some inst →
  protos w !! dbItem = None →
  inst_fields inst !! "__proto__" = None →
  Js.is_prototype value = true →
  let w' := set_protos (<[dbItem := value]> (protos w)) w in
  update B dbItem {["__proto__" := value]} w = (Rejected TypeError, w')
  ∧ heap w' = heap w ∧ log w' = log w ∧ db w' = db w
  ∧ (∀ data : Obj,
       ∃ w2, update B dbItem data w' = (Rejected TypeError, w2)
             ∧ log w2 = log w ∧ db w2 = db w)
  ∧ delete B dbItem w' = (Rejected TypeError, w').
Proof.
  intros Hinst Hproto Hown Hvalue. cbn zeta.
  set (w' := set_protos (<[dbItem := value]> (protos w)) w).
  assert (Hreplaced : protos w' !! dbItem = Some value) by apply lookup_insert_eq.
  split; [|split; [done|split; [done|split; [done|split]]]].
  - assert (Hassign : assign dbItem "__proto__" value w = w').
    { unfold assign. rewrite Hinst, Hproto. unfold writes_proto_property.
      by rewrite Hown, Hvalue, bool_decide_eq_true_2. }
    unfold update, object_keys. rewrite map_to_list_singleton.
    cbn [fmap list_fmap fst foldl]. rewrite lookup_singleton_eq.
    change (default Js.VUndefined (Some value)) with value. rewrite Hassign.
    unfold dbItem_save. change (heap w') with (heap w). rewrite Hinst.
    cbn [mbind option_bind]. by rewrite Hreplaced.
  - intros data.
    destruct (update_detached dbItem data w') as (w2 & Hupdate & Hlog & Hdb);
      [by exists value|].
    by exists w2.
  - unfold delete, dbItem_delete. change (heap w') with (heap w).
    rewrite Hinst. cbn [mbind option_bind]. by rewrite Hreplaced.
Qed.
End Coverage.

(** ** The application settings *)

(** X17. Whatever the environment, the log level, the service name, the
    application name and the service version are never empty; the exporter URL
    is empty exactly when its variable is unset or empty. *)
Theorem settings_never_empty (env : gmap string string) :
  Defaults.LOG_LEVEL (Defaults.exports env) ≠ ""
  ∧ Defaults.Service_NAME (Defaults.exports env) ≠ ""
  ∧ Defaults.APPLICATION_NAME (Defaults.exports env) ≠ ""
  ∧ Defaults.SERVICE_VERSION (Defaults.exports env) ≠ ""
  ∧ (Defaults.EXPORTER_URL (Defaults.exports env) = ""
     ↔ env !! "EXPORTER_URL" = None ∨ env !! "EXPORTER_URL" = Some "").
Proof.
  assert (Hfallback : ∀ value fallback,
            fallback ≠ "" → Defaults.or_default value fallback ≠ "").
  { intros [[|c s]|] fallback Hne; done. }
  unfold Defaults.exports. cbn. repeat split; try (by apply Hfallback).
  - destruct (env !! "EXPORTER_URL") as [[|c s]|]; cbn; intros; auto; discriminate.
  - by intros [-> | ->].
Qed.

(** X18. A variable set to the empty string counts as unset: the settings
    are the same as without the variable, whichever variable it is. *)
Theorem empty_variable_is_unset (env : gmap string string) (name : string) :
  Defaults.exports (<[name := ""]> env) = Defaults.exports (base.delete name env).
Proof.
  assert (Hsame : ∀ key fallback,
            Defaults.or_default (<[name := ""]> env !! key) fallback
            = Defaults.or_default (base.delete name env !! key) fallback).
  { intros key fallback. destruct (decide (name = key)) as [->|Hne].
    - by rewrite lookup_insert_eq, lookup_delete_eq.
    - by rewrite lookup_insert_ne, lookup_delete_ne. }
  unfold Defaults.exports. by rewrite !Hsame.
Qed.

(** ** The in-memory backend reads its own writes *)

Lemma value_eqb_refl (v : Js.Value) : Memory.value_eqb v v = true.
Proof.
  revert v. fix IH 1. intros [| |b|n|s|xs|props]; cbn; try done.
  - by destruct b.
  - apply Z.eqb_refl.
  - apply String.eqb_refl.
  - induction xs as [|x xs IHxs]; [done|]. by rewrite IH, IHxs.
  - induction props as [|[k x] props IHprops]; [done|].
    by rewrite String.eqb_refl, IH, IHprops.
Qed.

Lemma rows_without (model : Model) (id : Js.Value) (d : Memory.DB) :
  List.filter (Memory.has "id" id) (Memory.rows model (Memory.without model id d)) = [].
Proof.
  induction d as [|[table item] d IH]; [done|].
  unfold Memory.without. cbn [List.filter]. fold (Memory.without model id d).
  destruct (String.eqb table (model_name model)) eqn:Htable; cbn [andb negb].
  - destruct (Memory.has "id" id item) eqn:Hhas; cbn [negb]; [exact IH|].
    unfold Memory.rows. cbn [omap list_omap]. rewrite Htable.
    fold (Memory.rows model (Memory.without model id d)).
    cbn [List.filter]. by rewrite Hhas.
  - unfold Memory.rows. cbn [omap list_omap]. rewrite Htable. exact IH.
Qed.

Lemma memory_query (model : Model) (id : Js.Value) (item : Obj) (d d0 : Memory.DB) :
  item !! "id" = Some id →
  Memory.save model item d = (None, d0) ∨ Memory.delete model item d = (None, d0) →
  ∀ d1, Memory.query model "id" id d1
        = (inr (Memory.answer
                  (List.filter (Memory.has "id" id) (Memory.rows model d1))), d1).
Proof.
  unfold Memory.save, Memory.delete. intros ->.
  by destruct id; intros [?|?]; try discriminate.
Qed.

Lemma memory_reads_own_writes : ReadsOwnWrites Memory.backend.
Proof.
  split; intros model item id d d' Hid Hdone; cbn in Hdone |- *.
  - rewrite (memory_query model id item d d' Hid (or_introl Hdone)).
    assert (d' = (model_name model, item) :: Memory.without model id d) as ->.
    { unfold Memory.save in Hdone. rewrite Hid in Hdone.
      destruct id; try discriminate; by injection Hdone as <-. }
    unfold Memory.rows at 1. cbn [omap list_omap]. rewrite String.eqb_refl.
    fold (Memory.rows model (Memory.without model id d)).
    cbn [List.filter]. unfold Memory.has at 1. rewrite Hid, value_eqb_refl.
    rewrite rows_without. by eexists _, _.
  - rewrite (memory_query model id item d d' Hid (or_intror Hdone)).
    assert (d' = Memory.without model id d) as ->.
    { unfold Memory.delete in Hdone. rewrite Hid in Hdone.
      destruct id; try discriminate; by injection Hdone as <-. }
    rewrite rows_without. by eexists _, _.
Qed.

(** * The theorems at concrete inputs

    The service of the usage example, over the in-memory backend. *)





Lemma getById_not_found_witness :
  (getById Memory.backend "countries" (Js.VStr "c9") Memory.retrieved).1
  = Rejected (NotFoundError "countries with id: c9 doesn't exist").
Proof.
  destruct (getById_not_found Memory.backend "countries" (Js.VStr "c9") "c9"
              Memory.retrieved Memory.countries (Memory.answer [])
              [("countries", Memory.canada)])
    as (message & w' & -> & -> & _); reflexivity.
Defined.

Lemma search_empty_witness :
  ∃ records,
    (search Memory.backend "countries" {["name" := Js.VObj [("eq", Js.VStr "Peru")]]}
       Memory.retrieved).1 = Resolved records
    ∧ rec_items records = [].
Proof.
  destruct (search_empty Memory.backend "countries"
              {["name" := Js.VObj [("eq", Js.VStr "Peru")]]} Memory.retrieved
              Memory.countries (Memory.answer []) [("countries", Memory.canada)])
    as (records & w' & -> & Hnone & _).
  - reflexivity.
  - reflexivity.
  - left. reflexivity.
  - by exists records.
Defined.





Example toString_array :
  Js.toString (Js.VArr [Js.VStr "name"; Js.VNull;
                        Js.VNum {| Js.num := 12; Js.num_safe := eq_refl |};
                        Js.VArr [Js.VBool true;
                                 Js.VNum {| Js.num := -3; Js.num_safe := eq_refl |}]])
  = Some "name,,12,true,-3".
Proof. vm_compute. reflexivity. Qed.

(** An object with an own property [toString] cannot be printed, alone or
    inside an array. *)
Example toString_shadowed :
  Js.toString (Js.VObj [("toString", Js.VStr "x")]) = None
  ∧ Js.toString (Js.VArr [Js.VStr "a"; Js.VObj [("toString", Js.VStr "x")]]) = None
  ∧ Js.toString (Js.VObj [("name", Js.VStr "x")]) = Some "[object Object]".
Proof. repeat split. Qed.

(** Before the constructor's microtasks have run there is no model, and an
    operation rejects with the engine's [TypeError]. *)
Example too_early :
  models (constructor (DB := Memory.DB) Memory.config []) = ∅
  ∧ (search Memory.backend "countries" ∅ (constructor Memory.config [])).1
    = Rejected TypeError.
Proof. split; reflexivity. Qed.

(** The usage example of [docs/DynamoDB.md], run from an empty database:
    create Canada, find it a duplicate, change its country code, read it back,
    delete it, and look for it again. *)
Example usage_scenario :
  let s1 := create Memory.backend "countries" Memory.canada (Memory.ready []) in
  let s2 := validateDuplicate Memory.backend "countries" Memory.names
              Memory.canada_values s1.2 in
  let s3 := update Memory.backend 0%nat {["countryCode" := Js.VStr "CA"]} s2.2 in
  let s4 := getById Memory.backend "countries" (Js.VStr "c1") s3.2 in
  let s5 := delete Memory.backend 0%nat s4.2 in
  let s6 := getById Memory.backend "countries" (Js.VStr "c1") s5.2 in
  s1.1 = Resolved 0%nat
  ∧ s2.1 = Rejected (ConflictError
             "countries with [ name: Canada, countryCode: CAN ] already exists")
  ∧ s3.1 = Resolved 0%nat
  ∧ s4.1 = Resolved 2%nat
  ∧ (inst ← heap s4.2 !! 2%nat; inst_fields inst !! "countryCode") = Some (Js.VStr "CA")
  ∧ (inst ← heap s4.2 !! 2%nat; inst_fields inst !! "name") = Some (Js.VStr "Canada")
  ∧ s5.1 = Resolved 0%nat
  ∧ s6.1 = Rejected (NotFoundError "countries with id: c1 doesn't exist")
  ∧ length (log s6.2) = 6%nat.
Proof. vm_compute. repeat split. Qed.

(** The same caller, starting right after the constructor: the first
    operation finds no model, the [await] lets the models in, and the second
    reaches the backend. *)
Example first_call_too_early :
  let ops := [OpCreate "countries" Memory.canada; OpCreate "countries" Memory.canada] in
  (run Memory.backend (OpCreate "countries" Memory.canada)
     (constructor Memory.config [])).1 = Rejected TypeError
  ∧ log (Session.run_all Memory.backend ops (constructor Memory.config []))
    = [Save Memory.countries Memory.canada].
Proof. vm_compute. repeat split. Qed.

(** * The further properties at concrete inputs *)

Lemma search_found_witness :
  ∃ records,
    (search Memory.backend "countries" {["name" := Js.VObj [("eq", Js.VStr "Canada")]]}
       Memory.retrieved).1 = Resolved records
    ∧ rec_count records = Some 1%Z
    ∧ length (rec_items records) = 1%nat.
Proof.
  destruct (search_found Memory.backend "countries"
              {["name" := Js.VObj [("eq", Js.VStr "Canada")]]} Memory.retrieved
              Memory.countries (Memory.answer [Memory.canada])
              [("countries", Memory.canada)])
    as (records & w' & -> & Hcount & Hitems & _).
  - reflexivity.
  - reflexivity.
  - discriminate.
  - exists records. split; [reflexivity|]. split; [exact Hcount|].
    exact (Forall2_length _ _ _ Hitems).
Defined.

Lemma getById_found_witness :
  ∃ found w',
    getById Memory.backend "countries" (Js.VStr "c1") Memory.retrieved
    = (Resolved found, w')
    ∧ heap w' !! found
      = Some {| inst_model := Memory.countries; inst_fields := Memory.canada |}.
Proof.
  destruct (getById_found Memory.backend "countries" (Js.VStr "c1") Memory.retrieved
              Memory.countries (Memory.answer [Memory.canada])
              [("countries", Memory.canada)] Memory.canada [])
    as (found & w' & Hfound & _ & Hheap & _).
  - reflexivity.
  - reflexivity.
  - reflexivity.
  - exact (ex_intro _ found (ex_intro _ w' (conj Hfound Hheap))).
Defined.

Lemma missing_model_witness :
  search Memory.backend "cities" ∅ Memory.retrieved = (Rejected TypeError, Memory.retrieved).
Proof.
  apply (missing_model Memory.backend "cities" Memory.retrieved). reflexivity.
Defined.

Lemma string_values_pass_witness :
  ∃ options,
    duplicate_options Memory.names (Js.VStr "ab") = inr options
    ∧ ∃ name, Js.toString (Js.VStr "countryCode") = Some name
              ∧ is_Some (options !! name).
Proof.
  destruct (string_values_pass [Js.VStr "name"; Js.VStr "countryCode"] "ab")
    as (options & Hoptions & Hdefined & _).
  - reflexivity.
  - intros [|[|i]] key Hkey; cbn in Hkey; [| |discriminate];
      injection Hkey as <-; eexists; (split; [reflexivity|discriminate]).
  - exists options. split; [exact Hoptions|].
    apply (Hdefined 1%nat (Js.VStr "countryCode")). reflexivity.
Defined.

Lemma last_occurrence_wins_witness :
  match duplicate_options (Js.VArr [Js.VStr "name"; Js.VStr "name"])
          (Js.VArr [Js.VStr "Canada"; Js.VStr "Peru"]) with
  | inr options => options !! "name" = Some (Js.VObj [("eq", Js.VStr "Peru")])
  | inl _ => False
  end.
Proof.
  destruct (duplicate_options (Js.VArr [Js.VStr "name"; Js.VStr "name"])
              (Js.VArr [Js.VStr "Canada"; Js.VStr "Peru"]))
    as [e|options] eqn:Hoptions.
  - vm_compute in Hoptions. discriminate.
  - apply (last_occurrence_wins [Js.VStr "name"; Js.VStr "name"]
             (Js.VArr [Js.VStr "Canada"; Js.VStr "Peru"]) options 1%nat
             (Js.VStr "name") "name" Hoptions).
    + reflexivity.
    + reflexivity.
    + discriminate.
    + intros j' key' Hlater Hkey. apply lookup_lt_Some in Hkey. cbn in Hkey. lia.
Defined.

Lemma conflict_message_text_witness :
  conflict_message "countries" Memory.names Memory.canada_values
  = Some "countries with [ name: Canada, countryCode: CAN ] already exists".
Proof.
  apply (conflict_message_text "countries"
           [Js.VStr "name"; Js.VStr "countryCode"] [Js.VStr "Canada"; Js.VStr "CAN"]
           ["name"; "countryCode"] ["Canada"; "CAN"]); reflexivity.
Defined.

Lemma create_new_handle_witness :
  ∃ dbItem w',
    heap Memory.retrieved !! dbItem = None
    ∧ create Memory.backend "countries" Memory.canada Memory.retrieved
      = (Resolved dbItem, w').
Proof.
  destruct (create_new_handle Memory.backend "countries" Memory.canada
              Memory.retrieved Memory.countries)
    as (dbItem & w' & Hnew & _ & Hcase).
  - reflexivity.
  - exact (ex_intro _ dbItem (ex_intro _ w' (conj Hnew (proj1 Hcase)))).
Defined.

Lemma update_success_witness :
  ∃ inst',
    heap (update Memory.backend 0%nat {["countryCode" := Js.VStr "CA"]}
            Memory.retrieved).2 !! 0%nat = Some inst'
    ∧ inst_fields inst' !! "countryCode" = Some (Js.VStr "CA")
    ∧ inst_fields inst' !! "name" = Some (Js.VStr "Canada").
Proof.
  destruct (update_success Memory.backend 0%nat {["countryCode" := Js.VStr "CA"]}
              Memory.retrieved
              {| inst_model := Memory.countries; inst_fields := Memory.canada |}
              0%nat
              (update Memory.backend 0%nat {["countryCode" := Js.VStr "CA"]}
                 Memory.retrieved).2)
    as (_ & inst' & Hheap & _ & Hnew & Hold & _).
  - reflexivity.
  - vm_compute. reflexivity.
  - exists inst'. split; [exact Hheap|]. split.
    + apply Hnew; [reflexivity|discriminate].
    + exact (eq_trans (Hold "name" eq_refl) eq_refl).
Defined.

Lemma update_twice_witness :
  heap (update Memory.backend 0%nat {["countryCode" := Js.VStr "CA"]}
          (update Memory.backend 0%nat
             {["countryCode" := Js.VStr "C"; "name" := Js.VStr "Kanata"]}
             Memory.retrieved).2).2 !! 0%nat
  = Some {| inst_model := Memory.countries;
            inst_fields :=
              {["countryCode" := Js.VStr "CA"]}
              ∪ ({["countryCode" := Js.VStr "C"; "name" := Js.VStr "Kanata"]}
                 ∪ Memory.canada) |}.
Proof.
  apply (update_twice Memory.backend 0%nat
           {["countryCode" := Js.VStr "C"; "name" := Js.VStr "Kanata"]}
           {["countryCode" := Js.VStr "CA"]} Memory.retrieved
           {| inst_model := Memory.countries; inst_fields := Memory.canada |});
    reflexivity.
Defined.

Lemma update_nothing_witness :
  heap (update Memory.backend 0%nat ∅ Memory.retrieved).2 = heap Memory.retrieved.
Proof.
  exact (proj1 (update_nothing Memory.backend 0%nat Memory.retrieved
                  {| inst_model := Memory.countries; inst_fields := Memory.canada |}
                  eq_refl)).
Defined.

Lemma delete_keeps_handle_witness :
  heap (delete Memory.backend 0%nat Memory.retrieved).2 = heap Memory.retrieved
  ∧ protos (delete Memory.backend 0%nat Memory.retrieved).2 = protos Memory.retrieved.
Proof.
  destruct (delete_keeps_handle Memory.backend 0%nat Memory.retrieved
              {| inst_model := Memory.countries; inst_fields := Memory.canada |})
    as (Hheap & Hprotos & _).
  - reflexivity.
  - split; [exact Hheap|exact Hprotos].
Defined.

Lemma handles_persist_witness :
  ∃ inst',
    heap (run Memory.backend (OpGetById "countries" (Js.VStr "c1")) Memory.retrieved).2
      !! 0%nat = Some inst'
    ∧ inst_fields inst' = Memory.canada.
Proof.
  destruct (handles_persist Memory.backend (OpGetById "countries" (Js.VStr "c1"))
              Memory.retrieved 0%nat
              {| inst_model := Memory.countries; inst_fields := Memory.canada |})
    as (inst' & Hheap & _ & [Hsame|(data & Hop & _)]).
  - reflexivity.
  - exact (ex_intro _ inst' (conj Hheap Hsame)).
  - discriminate Hop.
Defined.

Lemma create_then_getById_witness :
  ∃ found w2,
    getById Memory.backend "countries" (Js.VStr "c1")
      (create Memory.backend "countries" Memory.canada (Memory.ready [])).2
    = (Resolved found, w2)
    ∧ found ≠ 0%nat.
Proof.
  destruct (create_then_getById Memory.backend "countries" Memory.canada
              (Memory.ready []) Memory.countries (Js.VStr "c1") 0%nat
              (create Memory.backend "countries" Memory.canada (Memory.ready [])).2)
    as (found & w2 & Hfound & Hother & _).
  - exact memory_reads_own_writes.
  - reflexivity.
  - reflexivity.
  - reflexivity.
  - exact (ex_intro _ found (ex_intro _ w2 (conj Hfound Hother))).
Defined.

Lemma update_then_getById_witness :
  ∃ found w2 inst2,
    getById Memory.backend "countries" (Js.VStr "c1")
      (update Memory.backend 0%nat {["countryCode" := Js.VStr "CA"]} Memory.retrieved).2
    = (Resolved found, w2)
    ∧ heap w2 !! found = Some inst2
    ∧ inst_fields inst2 !! "countryCode" = Some (Js.VStr "CA").
Proof.
  destruct (update_then_getById Memory.backend "countries" 0%nat
              {["countryCode" := Js.VStr "CA"]} Memory.retrieved
              {| inst_model := Memory.countries; inst_fields := Memory.canada |}
              (Js.VStr "c1")
              (update Memory.backend 0%nat {["countryCode" := Js.VStr "CA"]}
                 Memory.retrieved).2)
    as (found & w2 & inst2 & Hfound & Hheap & Hnew & _).
  - exact memory_reads_own_writes.
  - reflexivity.
  - reflexivity.
  - reflexivity.
  - vm_compute. reflexivity.
  - exists found, w2, inst2. split; [exact Hfound|]. split; [exact Hheap|].
    apply Hnew; [reflexivity|discriminate].
Defined.

Lemma delete_then_getById_witness :
  ∃ w2,
    getById Memory.backend "countries" (Js.VStr "c1")
      (delete Memory.backend 0%nat Memory.retrieved).2
    = (Rejected (NotFoundError "countries with id: c1 doesn't exist"), w2).
Proof.
  apply (delete_then_getById Memory.backend "countries" 0%nat Memory.retrieved
           {| inst_model := Memory.countries; inst_fields := Memory.canada |}
           (Js.VStr "c1") (delete Memory.backend 0%nat Memory.retrieved).2).
  - exact memory_reads_own_writes.
  - reflexivity.
  - reflexivity.
  - reflexivity.
  - vm_compute. reflexivity.
Defined.

Lemma prototype_replaced_witness :
  update Memory.backend 0%nat {["__proto__" := Js.VNull]} Memory.retrieved
  = (Rejected TypeError,
     set_protos (<[0%nat := Js.VNull]> (protos Memory.retrieved)) Memory.retrieved).
Proof.
  apply (prototype_replaced Memory.backend 0%nat Js.VNull Memory.retrieved
           {| inst_model := Memory.countries; inst_fields := Memory.canada |});
    reflexivity.
Defined.
